(** * Voicemail processing pipeline: a shallow embedding and its properties

    The development follows the source tree of the SMTP voicemail proxy:

    - [PyStr]            the Python [str] operations the services rely on
                         ([startswith], [in], [join], [lower], [str(int)]);
    - [Messages]         [app/models/messages.py];
    - [Transcription]    [app/services/transcription.py], the fan-out
                         [transcribe_multiple];
    - [EmailProcessor]   [app/services/email_processor.py], the subject and
                         plain-text body of the enhanced message;
    - [Md5], [PurePath]  [hashlib.md5] and [pathlib] as far as
                         [_generate_safe_filename] uses them;
    - [FileManager]      [app/services/file_manager.py], over an explicit
                         model of the storage tree with injected I/O faults;
    - [EmailTasks]       [app/tasks/email_tasks.py], the orchestrator
                         [_process_voicemail_async];
    - [SpeechCall]       [app/services/transcription.py], one
                         [transcribe_audio] call and the choice of the
                         audio encoding;
    - [HtmlEscape], [EnhancedHeaders], [SmtpSend]
                         [app/services/email_processor.py], the escaping,
                         the headers of the enhanced message and the SMTP
                         session;
    - [CorrelationId], [InboundMessage], [SmtpHandler]
                         [app/utils/correlation.py], the construction of
                         the message in [app/models/messages.py] and
                         [handle_DATA] of [app/smtp/handler.py];
    - [Logging], [LoggedTranscription], [LoggedFileManager], [Worker]
                         the logging calls of [app/utils/logging.py], the
                         fan-out and the store of the file manager with
                         their logging calls, and the orchestrator over
                         the three services.

    A Python [str] is a Rocq [string] whose characters are the code points
    0..255; a [bytes] value is a list of integers 0..255; a [float] is an
    IEEE-754 binary64 value ([spec_float] with precision 53). *)

From Stdlib Require Import ZArith String Ascii List Lia Bool.
From Stdlib Require Import Floats.SpecFloat.
From stdpp Require Import gmap strings list fin_maps.

Local Open Scope Z_scope.

(* ===================================================================== *)
(** * Definitions *)
(* ===================================================================== *)

(* --------------------------------------------------------------------- *)
(** ** Python string primitives *)
(* --------------------------------------------------------------------- *)

Module PyStr.

(** [s.startswith(p)] *)
Definition startswith (s p : string) : bool := String.prefix p s.

(** [needle in hay] *)
Fixpoint contains (needle hay : string) : bool :=
  String.prefix needle hay ||
  match hay with
  | EmptyString => false
  | String _ hay' => contains needle hay'
  end.

(** [needle] occurs in [hay]: the relational reading of [in]. *)
Definition occurs_in (needle hay : string) : Prop :=
  ∃ pre post, hay = pre +:+ needle +:+ post.

(** [sep.join(parts)] *)
Definition join (sep : string) (parts : list string) : string :=
  String.concat sep parts.

(** [c in s] for a single character. *)
Fixpoint has_char (c : ascii) (s : string) : bool :=
  match s with
  | EmptyString => false
  | String a s' => Ascii.eqb a c || has_char c s'
  end.

(** [s.split(sep)] for a one-character separator: never returns the
    empty list, and keeps empty fields. *)
Fixpoint split_go (sep : ascii) (cur : string) (s : string) : list string :=
  match s with
  | EmptyString => [String.rev cur]
  | String a s' =>
      if Ascii.eqb a sep then String.rev cur :: split_go sep EmptyString s'
      else split_go sep (String a cur) s'
  end.
Definition split (sep : ascii) (s : string) : list string :=
  split_go sep EmptyString s.

(** [str.lower] on the code points 0..255: the ASCII capitals and the
    Latin-1 capitals U+00C0..U+00DE (U+00D7, the multiplication sign,
    apart) move up by 32; every other code point is its own lower case. *)
Definition lower_char (c : ascii) : ascii :=
  let n := N_of_ascii c in
  if ((65 <=? n) && (n <=? 90))%N then ascii_of_N (n + 32)
  else if ((192 <=? n) && (n <=? 222) && negb (n =? 215))%N
       then ascii_of_N (n + 32)
  else c.
Fixpoint lower (s : string) : string :=
  match s with
  | EmptyString => EmptyString
  | String a s' => String (lower_char a) (lower s')
  end.

(** Decimal digits of a natural number, [str(n)]; the fuel is the number
    of binary digits, which bounds the number of decimal ones. *)
Definition digit_char (d : N) : ascii := ascii_of_N (48 + d).
Fixpoint str_of_N_go (fuel : nat) (n : N) (acc : string) : string :=
  match fuel with
  | O => acc
  | S fuel' =>
      let acc' := String (digit_char (n mod 10)) acc in
      if (n / 10 =? 0)%N then acc' else str_of_N_go fuel' (n / 10)%N acc'
  end.
Definition str_of_N (n : N) : string :=
  str_of_N_go (S (N.to_nat (N.log2 n))) n EmptyString.

(** [int(s)] for a string of decimal digits, most significant first. *)
Fixpoint N_of_str_go (acc : N) (s : string) : N :=
  match s with
  | EmptyString => acc
  | String c s' => N_of_str_go (10 * acc + (N_of_ascii c - 48)) s'
  end.
Definition N_of_str (s : string) : N := N_of_str_go 0 s.

(** ["0" * k] *)
Fixpoint zeros (k : nat) : string :=
  match k with O => EmptyString | S k' => String "0"%char (zeros k') end.

(** [s.rjust(width, "0")] for a string of digits: the ["{:0<width>d}"]
    padding of a non-negative integer. *)
Definition zfill (width : nat) (s : string) : string :=
  zeros (width - String.length s) +:+ s.

(** [s[:k]] *)
Fixpoint take_str (k : nat) (s : string) : string :=
  match k, s with
  | S k', String a s' => String a (take_str k' s')
  | _, _ => EmptyString
  end.

(** [s[k:]] *)
Fixpoint drop_str (k : nat) (s : string) : string :=
  match k, s with
  | S k', String _ s' => drop_str k' s'
  | _, _ => s
  end.

(** [s.rfind(c)] for a single character: the last position of [c], scanning
    from position [pos] with [best] the last one seen so far. *)
Fixpoint rfind_go (c : ascii) (s : string) (pos : nat) (best : option nat)
    : option nat :=
  match s with
  | EmptyString => best
  | String a s' =>
      rfind_go c s' (S pos) (if Ascii.eqb a c then Some pos else best)
  end.
Definition rfind (c : ascii) (s : string) : option nat :=
  rfind_go c s 0%nat None.

(** [all(p(c) for c in s)] *)
Fixpoint forall_chars (p : ascii → bool) (s : string) : bool :=
  match s with
  | EmptyString => true
  | String a s' => p a && forall_chars p s'
  end.

(** The characters [0]..[9]. *)
Definition is_digit (c : ascii) : bool :=
  let n := N_of_ascii c in ((48 <=? n) && (n <=? 57))%N.

(** The characters [0]..[9] and [a]..[f]. *)
Definition is_hex (c : ascii) : bool :=
  let n := N_of_ascii c in
  (((48 <=? n) && (n <=? 57)) || ((97 <=? n) && (n <=? 102)))%N.

(** [s.encode()]: UTF-8, for code points below 256. *)
Fixpoint encode (s : string) : list Z :=
  match s with
  | EmptyString => []
  | String a s' =>
      let n := Z.of_N (N_of_ascii a) in
      (if n <? 128 then [n]
       else [Z.lor 192 (Z.shiftr n 6); Z.lor 128 (Z.land n 63)])
      ++ encode s'
  end.

End PyStr.

(* --------------------------------------------------------------------- *)
(** ** Message and result records ([app/models/messages.py]) *)
(* --------------------------------------------------------------------- *)

Module Messages.

Record AudioAttachment := {
  filename : string;
  content_type : string;
  size_bytes : Z;
  data : list Z
}.

Record TranscriptionResult := {
  transcript : string;
  confidence : spec_float;
  language_code : string;
  alternatives : list string;
  processing_time_ms : Z
}.

Record VoicemailMessage := {
  correlation_id : string;
  message_id : string;
  sender : string;
  recipients : list string;
  subject : string;
  body_text : option string;
  body_html : option string;
  audio_attachments : list AudioAttachment;
  transcription_results : list TranscriptionResult
}.

(** [voicemail_msg.transcription_results = rs] *)
Definition set_transcription_results
    (m : VoicemailMessage) (rs : list TranscriptionResult) : VoicemailMessage :=
  {| correlation_id := correlation_id m; message_id := message_id m;
     sender := sender m; recipients := recipients m; subject := subject m;
     body_text := body_text m; body_html := body_html m;
     audio_attachments := audio_attachments m;
     transcription_results := rs |}.

Definition has_audio_attachments (m : VoicemailMessage) : bool :=
  (0 <? length (audio_attachments m))%nat.

Record ProcessingResult := {
  pr_correlation_id : string;
  success : bool;
  transcriptions_count : nat;
  error_message : option string;
  pr_processing_time_ms : Z;
  forwarded : bool;
  files_cleaned : bool
}.

End Messages.

(* --------------------------------------------------------------------- *)
(** ** Transcription fan-out ([app/services/transcription.py]) *)
(* --------------------------------------------------------------------- *)

Module Transcription.
Import Messages.

(** What [asyncio.gather(..., return_exceptions=True)] hands back for one
    awaited [transcribe_audio] call: the exception it raised, or the
    value it returned ([None] for a failed transcription). *)
Inductive gathered :=
| Raised (err : string)
| Returned (r : option TranscriptionResult).

Section FanOut.
(** The outcome of the call issued for the attachment at position [i];
    two calls on equal attachments may differ. *)
Variable transcribe_audio : nat → AudioAttachment → gathered.

(** [asyncio.gather]: the calls finish in the order [completion]; each
    one stores its outcome in the slot of its own position, and the
    slots are read out in position order once all are filled. *)
Definition finish (tasks : list AudioAttachment)
    (slots : list (option gathered)) (i : nat) : list (option gathered) :=
  match tasks !! i with
  | Some a => <[i := Some (transcribe_audio i a)]> slots
  | None => slots
  end.
Definition gather (completion : list nat) (tasks : list AudioAttachment)
    : list gathered :=
  omap id (foldl (finish tasks) (replicate (length tasks) None) completion).

(** What one round of the [for i, result in enumerate(results)] loop
    appends; the state is [(transcription_results, successful_count)].
    In the branch of a gathered exception the source calls [log_error]
    before it appends: this is the round once that call has returned, and
    [LoggedTranscription.collect] is the round with the call. *)
Definition collect (acc : list (option TranscriptionResult) * nat)
    (result : gathered) : list (option TranscriptionResult) * nat :=
  match result with
  | Raised _ => (acc.1 ++ [None], acc.2)
  | Returned (Some r) => (acc.1 ++ [Some r], S acc.2)
  | Returned None => (acc.1 ++ [None], acc.2)
  end.

(** The list [transcribe_multiple] builds when every logging call of its
    loop returns: no gathered outcome is an exception, or the error call
    is disabled.  [LoggedTranscription.transcribe_multiple] is the method
    with the logging call, which can raise. *)
Definition transcribe_multiple (completion : list nat)
    (audio_attachments : list AudioAttachment)
    : list (option TranscriptionResult) :=
  match audio_attachments with
  | [] => []
  | _ =>
      let results := gather completion audio_attachments in
      (foldl collect ([], 0%nat) results).1
  end.

(** The slot value the loop derives from one gathered outcome. *)
Definition outcome_of (g : gathered) : option TranscriptionResult :=
  match g with
  | Raised _ => None
  | Returned r => r
  end.
End FanOut.

End Transcription.

(* --------------------------------------------------------------------- *)
(** ** Python float formatting *)
(* --------------------------------------------------------------------- *)

Module PyFloat.
Import PyStr.

Definition prec : Z := 53.
Definition emax : Z := 1024.

(** [x * y] on binary64 values, rounded to nearest even. *)
Definition mul (x y : spec_float) : spec_float := SFmul prec emax x y.

(** The float [100.0]. *)
Definition hundred : spec_float := S754_finite false 25 2.

(** [num / den] rounded to the nearest integer, ties to even;
    [den] is positive. *)
Definition round_half_even (num den : Z) : Z :=
  let q := num / den in
  let r := num mod den in
  match 2 * r ?= den with
  | Lt => q
  | Gt => q + 1
  | Eq => if Z.even q then q else q + 1
  end.

(** The integer nearest to [m * 2^e * 10^ndigits]. *)
Definition scaled (ndigits : nat) (m : positive) (e : Z) : Z :=
  let n := Z.pos m * 10 ^ Z.of_nat ndigits in
  if 0 <=? e then n * 2 ^ e else round_half_even n (2 ^ (- e)).

(** The digits of [v], with a decimal point before the last [ndigits]. *)
Definition fixed_digits (ndigits : nat) (v : Z) : string :=
  let s := zfill (S ndigits) (str_of_N (Z.to_N v)) in
  let k := (String.length s - ndigits)%nat in
  match ndigits with
  | O => s
  | _ => take_str k s +:+ "." +:+ drop_str k s
  end.

Definition sign_str (s : bool) : string := if s then "-" else "".

(** [format(x, ".<ndigits>f")]: the correctly rounded decimal expansion
    of the exact binary value. *)
Definition format_f (ndigits : nat) (x : spec_float) : string :=
  match x with
  | S754_nan => "nan"
  | S754_infinity s => sign_str s +:+ "inf"
  | S754_zero s => sign_str s +:+ fixed_digits ndigits 0
  | S754_finite s m e => sign_str s +:+ fixed_digits ndigits (scaled ndigits m e)
  end.

(** [format(x, ".<ndigits>%")]: the value is multiplied by [100.0] as a
    float, printed in fixed notation, and followed by a percent sign. *)
Definition format_percent (ndigits : nat) (x : spec_float) : string :=
  format_f ndigits (mul x hundred) +:+ "%".

(** The float literal [0.95]: the binary64 value nearest to 95/100,
    bit pattern [0x3FEE666666666666]. *)
Definition f0_95 : spec_float := S754_finite false 8556839292003942 (-53).

End PyFloat.

(* --------------------------------------------------------------------- *)
(** ** Message enhancement ([app/services/email_processor.py]) *)
(* --------------------------------------------------------------------- *)

Module EmailProcessor.
Import PyStr PyFloat Messages.

(** The line separator of ["\n".join(lines)]. *)
Definition nl : string := String "010"%char EmptyString.

(** [[r for r in transcription_results if r is not None]] *)
Definition successful (transcription_results : list (option TranscriptionResult))
    : list TranscriptionResult :=
  omap id transcription_results.

Definition _enhance_subject (original_subject : string)
    (transcription_results : list (option TranscriptionResult)) : string :=
  let successful_transcriptions := successful transcription_results in
  match successful_transcriptions with
  | _ :: _ =>
      if negb (startswith original_subject "[Transcribed]")
      then "[Transcribed] " +:+ original_subject
      else original_subject
  | [] =>
      if negb (startswith original_subject "[Audio]")
      then "[Audio] " +:+ original_subject
      else original_subject
  end.

(** The lines one successful result contributes to the body; [total] is
    [len(successful_transcriptions)] and [i] the position of [result]. *)
Definition alternative_line (j : nat) (alt : string) : string :=
  "  " +:+ str_of_N (N.of_nat (S j)) +:+ ". " +:+ alt.

Definition result_lines (total : nat) (i : nat) (result : TranscriptionResult)
    : list string :=
  (if (1 <? total)%nat
   then ["Audio File " +:+ str_of_N (N.of_nat (S i)) +:+ ":"] else [])
  ++ ["Transcript: " +:+ transcript result;
      "Confidence: " +:+ format_percent 2 (confidence result)]
  ++ (match alternatives result with
      | [] => []
      | alts => "Alternative transcriptions:"
                :: imap alternative_line (take 3 alts)
      end)
  ++ [""].

(** Python truthiness of an [Optional[str]]. *)
Definition truthy (s : option string) : bool :=
  match s with
  | Some (String _ _) => true
  | _ => false
  end.

Definition body_lines (voicemail_msg : VoicemailMessage)
    (transcription_results : list (option TranscriptionResult)) : list string :=
  let successful_transcriptions := successful transcription_results in
  (match successful_transcriptions with
   | _ :: _ =>
       ["=== VOICEMAIL TRANSCRIPTION ==="; ""]
       ++ concat (imap (result_lines (length successful_transcriptions))
                       successful_transcriptions)
       ++ ["=== END TRANSCRIPTION ==="; ""]
   | [] =>
       if has_audio_attachments voicemail_msg
       then ["=== VOICEMAIL AUDIO ATTACHED ===";
             "(Transcription was not available for this message)";
             ""]
       else []
   end)
  ++ (if truthy (body_text voicemail_msg)
      then ["=== ORIGINAL MESSAGE ==="; ""; default "" (body_text voicemail_msg)]
      else []).

Definition _create_plain_text_body (voicemail_msg : VoicemailMessage)
    (transcription_results : list (option TranscriptionResult)) : string :=
  join nl (body_lines voicemail_msg transcription_results).

(** The parts of the enhanced message the pipeline's properties speak
    about: the [Subject] header, the recipients line and the plain-text
    part. *)
Record EnhancedEmail := {
  e_from : string;
  e_to : string;
  e_subject : string;
  e_correlation_id : string;
  e_plain : string;
  e_audio : list AudioAttachment
}.

Definition _create_enhanced_email (voicemail_msg : VoicemailMessage)
    (transcription_results : list (option TranscriptionResult)) : EnhancedEmail :=
  {| e_from := sender voicemail_msg;
     e_to := join ", " (recipients voicemail_msg);
     e_subject := _enhance_subject (subject voicemail_msg) transcription_results;
     e_correlation_id := correlation_id voicemail_msg;
     e_plain := _create_plain_text_body voicemail_msg transcription_results;
     e_audio := audio_attachments voicemail_msg |}.

Section Dispatch.
(** The outbound SMTP hand-over, [_send_email]: it reports whether the
    message went out and never raises. *)
Variable _send_email : EnhancedEmail → list string → bool.

Definition enhance_and_forward (voicemail_msg : VoicemailMessage)
    (transcription_results : list (option TranscriptionResult)) : bool :=
  let enhanced_email := _create_enhanced_email voicemail_msg transcription_results in
  _send_email enhanced_email (recipients voicemail_msg).
End Dispatch.

End EmailProcessor.

(* --------------------------------------------------------------------- *)
(** ** [hashlib.md5] *)
(* --------------------------------------------------------------------- *)

Module Md5.
Import PyStr.

Definition is_byte (b : Z) : Prop := 0 ≤ b < 256.

Definition mask32 (x : Z) : Z := x mod 2 ^ 32.
Definition not32 (x : Z) : Z := Z.lxor x 4294967295.
Definition rotl (x c : Z) : Z :=
  mask32 (Z.lor (Z.shiftl x c) (Z.shiftr x (32 - c))).

Definition shifts : list Z :=
  [7; 12; 17; 22; 7; 12; 17; 22; 7; 12; 17; 22; 7; 12; 17; 22;
   5; 9; 14; 20; 5; 9; 14; 20; 5; 9; 14; 20; 5; 9; 14; 20;
   4; 11; 16; 23; 4; 11; 16; 23; 4; 11; 16; 23; 4; 11; 16; 23;
   6; 10; 15; 21; 6; 10; 15; 21; 6; 10; 15; 21; 6; 10; 15; 21].

(** [floor(2^32 * abs(sin(i + 1)))] for [i] from 0 to 63. *)
Definition sines : list Z :=
  [3614090360; 3905402710; 606105819; 3250441966; 4118548399; 1200080426;
   2821735955; 4249261313; 1770035416; 2336552879; 4294925233; 2304563134;
   1804603682; 4254626195; 2792965006; 1236535329; 4129170786; 3225465664;
   643717713; 3921069994; 3593408605; 38016083; 3634488961; 3889429448;
   568446438; 3275163606; 4107603335; 1163531501; 2850285829; 4243563512;
   1735328473; 2368359562; 4294588738; 2272392833; 1839030562; 4259657740;
   2763975236; 1272893353; 4139469664; 3200236656; 681279174; 3936430074;
   3572445317; 76029189; 3654602809; 3873151461; 530742520; 3299628645;
   4096336452; 1126891415; 2878612391; 4237533241; 1700485571; 2399980690;
   4293915773; 2240044497; 1873313359; 4264355552; 2734768916; 1309151649;
   4149444226; 3174756917; 718787259; 3951481745].

(** The [k] low bytes of [x], least significant first. *)
Fixpoint le_bytes (k : nat) (x : Z) : list Z :=
  match k with
  | O => []
  | S k' => Z.land x 255 :: le_bytes k' (Z.shiftr x 8)
  end.

(** Little-endian value of a list of bytes. *)
Fixpoint le_word (bs : list Z) : Z :=
  match bs with
  | [] => 0
  | b :: bs' => b + 256 * le_word bs'
  end.

Definition pad (msg : list Z) : list Z :=
  let len := Z.of_nat (length msg) in
  msg ++ [128] ++ replicate (Z.to_nat ((55 - len) mod 64)) 0
      ++ le_bytes 8 ((8 * len) mod 2 ^ 64).

(** Consecutive groups of [k] elements. *)
Fixpoint groups {A} (fuel k : nat) (l : list A) : list (list A) :=
  match fuel, l with
  | S fuel', _ :: _ => take k l :: groups fuel' k (drop k l)
  | _, _ => []
  end.

Definition state : Type := Z * Z * Z * Z.

Definition step (M : list Z) (st : state) (i : Z) : state :=
  let '(A, B, C, D) := st in
  let '(F, g) :=
    if i <? 16 then (Z.lor (Z.land B C) (Z.land (not32 B) D), i)
    else if i <? 32 then
      (Z.lor (Z.land D B) (Z.land (not32 D) C), (5 * i + 1) mod 16)
    else if i <? 48 then (Z.lxor (Z.lxor B C) D, (3 * i + 5) mod 16)
    else (Z.lxor C (Z.lor B (not32 D)), (7 * i) mod 16) in
  let F' := mask32 (F + A + nth (Z.to_nat i) sines 0 + nth (Z.to_nat g) M 0) in
  (D, mask32 (B + rotl F' (nth (Z.to_nat i) shifts 0)), B, C).

Definition compress (st : state) (chunk : list Z) : state :=
  let M := map le_word (groups 16 4 chunk) in
  let '(a0, b0, c0, d0) := st in
  let '(A, B, C, D) := foldl (step M) st (map Z.of_nat (seq 0 64)) in
  (mask32 (a0 + A), mask32 (b0 + B), mask32 (c0 + C), mask32 (d0 + D)).

Definition init : state := (1732584193, 4023233417, 2562383102, 271733878).

(** [hashlib.md5(msg).digest()] as a list of 16 bytes. *)
Definition digest (msg : list Z) : list Z :=
  let padded := pad msg in
  let '(a, b, c, d) := foldl compress init (groups (length padded) 64 padded) in
  le_bytes 4 a ++ le_bytes 4 b ++ le_bytes 4 c ++ le_bytes 4 d.

Definition hex_char (n : Z) : ascii :=
  if n <? 10 then ascii_of_N (Z.to_N (48 + n)) else ascii_of_N (Z.to_N (87 + n)).

Fixpoint hex_of_bytes (bs : list Z) : string :=
  match bs with
  | [] => EmptyString
  | b :: bs' =>
      String (hex_char (Z.shiftr b 4)) (String (hex_char (Z.land b 15))
        (hex_of_bytes bs'))
  end.

(** [hashlib.md5(msg).hexdigest()] *)
Definition hexdigest (msg : list Z) : string := hex_of_bytes (digest msg).

End Md5.

(* --------------------------------------------------------------------- *)
(** ** [pathlib] pure paths, POSIX flavour *)
(* --------------------------------------------------------------------- *)

Module PurePath.
Import PyStr.

(** A path is its anchor (rooted or not) and its components. *)
Record pure_path := { rooted : bool; parts : list string }.

Definition keep_part (x : string) : bool :=
  negb (String.eqb x "") && negb (String.eqb x ".").

(** The components of a path string: the fields between slashes, the empty
    ones and the single dots dropped. *)
Definition parts_of (s : string) : list string :=
  List.filter keep_part (split "/"%char s).

(** [PurePosixPath(s)] *)
Definition of_str (s : string) : pure_path :=
  {| rooted := startswith s "/"; parts := parts_of s |}.

(** [p / s] *)
Definition truediv (p : pure_path) (s : string) : pure_path :=
  if startswith s "/" then of_str s
  else {| rooted := rooted p; parts := parts p ++ parts_of s |}.

(** [p.name]: the final component, empty when there is none. *)
Definition name (p : pure_path) : string := List.last (parts p) "".

(** [p.suffix]: the final component from its last dot on, unless that dot
    is its first or its last character. *)
Definition suffix (p : pure_path) : string :=
  let n := name p in
  match rfind "."%char n with
  | Some i =>
      if ((0 <? i) && (i <? String.length n - 1))%nat then drop_str i n
      else ""
  | None => ""
  end.

(** [p.parent] *)
Definition parent (p : pure_path) : pure_path :=
  {| rooted := rooted p; parts := removelast (parts p) |}.

End PurePath.

(* --------------------------------------------------------------------- *)
(** ** Artifact store ([app/services/file_manager.py]) *)
(* --------------------------------------------------------------------- *)

Module FileManager.
Import PyStr Md5 PurePath Messages.

Definition _generate_safe_filename (original_filename : string) (index : nat)
    : string :=
  let file_path := of_str original_filename in
  let extension := lower (suffix file_path) in
  let filename_hash := take_str 8 (hexdigest (encode original_filename)) in
  "audio_" +:+ zfill 2 (str_of_N (N.of_nat index)) +:+ "_"
           +:+ filename_hash +:+ extension.

(** The shape [audio_<two digits>_<eight hex digits><extension>]. *)
Definition two_digit_shape (stored original : string) : Prop :=
  ∃ d1 d2 h,
    is_digit d1 = true ∧ is_digit d2 = true
    ∧ String.length h = 8%nat ∧ forall_chars is_hex h = true
    ∧ stored = "audio_" +:+ String d1 (String d2 "_") +:+ h
                        +:+ lower (suffix (of_str original)).

(** *** The storage tree

    Below [config.path] lie the three areas [temp], [processed] and
    [failed]; an area maps the name of an entry (for the pipeline: a
    correlation id, which is a single path component) to what is stored
    under it.  A directory carries its modification time, in seconds, and
    its files. *)
Inductive node :=
| File (content : list Z)
| Dir (mtime : Z) (entries : gmap string (list Z)).

Record storage := {
  temp : gmap string node;
  processed : gmap string node;
  failed : gmap string node
}.

Inductive area := Temp | Processed | Failed.

Definition area_of (a : area) (st : storage) : gmap string node :=
  match a with
  | Temp => temp st
  | Processed => processed st
  | Failed => failed st
  end.

(** The entry [k] of a map becomes [o]: present with that node, or absent. *)
Definition place (k : string) (o : option node) (m : gmap string node)
    : gmap string node :=
  match o with
  | Some n => <[k := n]> m
  | None => delete k m
  end.

Definition put (a : area) (k : string) (o : option node) (st : storage)
    : storage :=
  match a with
  | Temp => {| temp := place k o (temp st); processed := processed st;
               failed := failed st |}
  | Processed => {| temp := temp st; processed := place k o (processed st);
                    failed := failed st |}
  | Failed => {| temp := temp st; processed := processed st;
                 failed := place k o (failed st) |}
  end.

(** In how many of the three areas the name [k] is present. *)
Definition present (a : area) (k : string) (st : storage) : bool :=
  match area_of a st !! k with
  | Some _ => true
  | None => false
  end.
Definition occupancy (k : string) (st : storage) : nat :=
  ((if present Temp k st then 1 else 0)
   + (if present Processed k st then 1 else 0)
   + (if present Failed k st then 1 else 0))%nat.

(** The work directory of the id is there, as a directory. *)
Definition work_dir_present (correlation_id : string) (st : storage) : Prop :=
  ∃ mtime entries, temp st !! correlation_id = Some (Dir mtime entries).

(** *** Injected I/O behaviour

    A storage call either completes or raises; when it raises, what it
    leaves behind at the paths it touched is part of the outcome. *)
Inductive rm_outcome :=
| RmDone
| RmRaises (residue : option node).

Inductive mv_outcome :=
| MvDone
| MvRaises (src_left dst_left : option node).

Inductive write_outcome :=
| Wrote (on_disk : list Z)
| WriteRaises (residue : option (list Z)).

(** The outcomes of the three storage calls of one
    [_cleanup_correlation_files] run. *)
Record cleanup_io := {
  rm_target : rm_outcome;
  mv : mv_outcome;
  rm_work : rm_outcome
}.

Definition no_faults : cleanup_io :=
  {| rm_target := RmDone; mv := MvDone; rm_work := RmDone |}.

(** [shutil.rmtree(p)] where [p] currently holds [n]: whether it raised,
    and what [p] holds afterwards.  A missing path and a plain file make it
    raise without touching anything. *)
Definition rmtree (o : rm_outcome) (n : option node) : bool * option node :=
  match n with
  | None => (true, None)
  | Some (File c) => (true, Some (File c))
  | Some (Dir _ _) =>
      match o with
      | RmDone => (false, None)
      | RmRaises residue => (true, residue)
      end
  end.

(** The relocation of a run goes through: the old target, if any, can be
    removed, and the move does not raise. *)
Definition relocates (io : cleanup_io) (correlation_id : string)
    (success : bool) (st : storage) : bool :=
  let target := if success then Processed else Failed in
  match area_of target st !! correlation_id with
  | Some t => negb (rmtree (rm_target io) (Some t)).1
  | None => true
  end
  && match mv io with
     | MvDone => true
     | MvRaises _ _ => false
     end.

(** The [except] branch of [_cleanup_correlation_files]: delete the work
    directory; the result is whether that worked. *)
Definition fallback_delete (io : cleanup_io) (correlation_id : string)
    (st : storage) : bool * storage * bool :=
  let '(raised, residue) := rmtree (rm_work io) (temp st !! correlation_id) in
  (negb raised, put Temp correlation_id residue st, false).

(** The result is the returned flag, the storage afterwards, and whether
    the old-file sweep was spawned with [asyncio.create_task] (it runs
    after the caller has its result). *)
Definition _cleanup_correlation_files (io : cleanup_io)
    (correlation_id : string) (success : bool) (st : storage)
    : bool * storage * bool :=
  match temp st !! correlation_id with
  | None => (true, st, false)
  | Some work =>
      let target := if success then Processed else Failed in
      let '(raised, target_left) :=
        match area_of target st !! correlation_id with
        | Some t => rmtree (rm_target io) (Some t)
        | None => (false, None)
        end in
      let st1 := put target correlation_id target_left st in
      if raised then fallback_delete io correlation_id st1
      else
        match mv io with
        | MvDone =>
            (true,
             put Temp correlation_id None
               (put target correlation_id (Some work) st1),
             true)
        | MvRaises src_left dst_left =>
            fallback_delete io correlation_id
              (put Temp correlation_id src_left
                 (put target correlation_id dst_left st1))
        end
  end.

(** The public wrapper turns an escaping exception into [False]; the
    internal method lets none escape. *)
Definition cleanup_correlation_files (io : cleanup_io)
    (correlation_id : string) (success : bool) (st : storage)
    : bool * storage * bool :=
  _cleanup_correlation_files io correlation_id success st.

(** *** Age-based sweep *)

(** [datetime.fromtimestamp(ts)]: a naive local time, [utc_offset] seconds
    ahead of UTC. *)
Definition fromtimestamp (utc_offset ts : Z) : Z := ts + utc_offset.

(** A directory whose modification time lies before the cut-off. *)
Definition eligible (utc_offset cutoff_time : Z) (n : option node) : bool :=
  match n with
  | Some (Dir mtime _) => fromtimestamp utc_offset mtime <? cutoff_time
  | _ => false
  end.

(** The loop of [_cleanup_old_directories] over the listing [items] of the
    area; a raising [rmtree] leaves the loop, to the enclosing [except]. *)
Fixpoint sweep_loop (rm : string → rm_outcome) (utc_offset cutoff_time : Z)
    (items : list string) (m : gmap string node) : gmap string node :=
  match items with
  | [] => m
  | item :: rest =>
      match m !! item with
      | Some (Dir mtime entries) =>
          let mod_time := fromtimestamp utc_offset mtime in
          if mod_time <? cutoff_time then
            let '(raised, residue) := rmtree (rm item) (Some (Dir mtime entries)) in
            if raised then place item residue m
            else sweep_loop rm utc_offset cutoff_time rest (place item residue m)
          else sweep_loop rm utc_offset cutoff_time rest m
      | _ => sweep_loop rm utc_offset cutoff_time rest m
      end
  end.

(** [base_dir.iterdir()] yields [items], the names in the area in the
    order the file system lists them.  The area itself exists: the
    constructor creates the three of them. *)
Definition _cleanup_old_directories (rm : string → rm_outcome)
    (utc_offset : Z) (items : list string) (cutoff_time : Z)
    (m : gmap string node) : gmap string node :=
  sweep_loop rm utc_offset cutoff_time items m.

(** What one run of the sweep meets: the clock, the listings of the two
    areas and the outcome of each [rmtree]. *)
Record sweep_io := {
  utcnow : Z;
  utc_offset : Z;
  list_processed : list string;
  list_failed : list string;
  rm_processed : string → rm_outcome;
  rm_failed : string → rm_outcome
}.

Definition _schedule_old_file_cleanup (cleanup_after_hours : Z)
    (io : sweep_io) (st : storage) : storage :=
  let cutoff_time := utcnow io - cleanup_after_hours * 3600 in
  {| temp := temp st;
     processed := _cleanup_old_directories (rm_processed io) (utc_offset io)
                    (list_processed io) cutoff_time (processed st);
     failed := _cleanup_old_directories (rm_failed io) (utc_offset io)
                 (list_failed io) cutoff_time (failed st) |}.

(** *** Persisting the audio payloads *)

Record store_io := {
  clock : Z;
  mkdir_raises : bool;
  write : nat → AudioAttachment → write_outcome;
  store_cleanup : cleanup_io
}.

Section Store.
(** [config.path] *)
Variable storage_path : pure_path.

Definition work_dir_of (correlation_id : string) : pure_path :=
  truediv (truediv storage_path "temp") correlation_id.

(** The file [name] of a directory becomes [o]. *)
Definition write_file (now : Z) (name : string) (o : option (list Z))
    (n : node) : node :=
  match n, o with
  | Dir _ entries, Some c => Dir now (<[name := c]> entries)
  | _, _ => n
  end.

Definition _store_audio_file (io : store_io) (correlation_id : string)
    (attachment : AudioAttachment) (index : nat) (st : storage)
    : option pure_path * storage :=
  let safe_filename := _generate_safe_filename (filename attachment) index in
  let file_path := truediv (work_dir_of correlation_id) safe_filename in
  match temp st !! correlation_id with
  | Some (Dir mtime entries) =>
      match write io index attachment with
      | Wrote on_disk =>
          let st' := put Temp correlation_id
                       (Some (write_file (clock io) safe_filename (Some on_disk)
                                (Dir mtime entries))) st in
          if bool_decide (length on_disk = length (data attachment))
          then (Some file_path, st')
          else (None, st')
      | WriteRaises residue =>
          (None,
           put Temp correlation_id
             (Some (write_file (clock io) safe_filename residue (Dir mtime entries)))
             st)
      end
  | _ => (None, st)
  end.

(** One round of the [for i, attachment in enumerate(...)] loop; the state
    is [(stored_files, storage)]. *)
Definition store_one (io : store_io) (correlation_id : string)
    (acc : gmap string pure_path * storage) (ia : nat * AudioAttachment)
    : gmap string pure_path * storage :=
  match _store_audio_file io correlation_id ia.2 ia.1 acc.2 with
  | (Some file_path, st') => (<[filename ia.2 := file_path]> acc.1, st')
  | (None, st') => (acc.1, st')
  end.

(** [work_dir.mkdir(parents=True, exist_ok=True)]: whether it raised, and
    the storage afterwards. *)
Definition mkdir_work (io : store_io) (correlation_id : string)
    (st : storage) : bool * storage :=
  match temp st !! correlation_id with
  | Some (Dir _ _) => (false, st)
  | Some (File _) => (true, st)
  | None =>
      if mkdir_raises io then (true, st)
      else (false, put Temp correlation_id (Some (Dir (clock io) ∅)) st)
  end.

Definition store_voicemail_files (io : store_io)
    (voicemail_msg : VoicemailMessage) (st : storage)
    : gmap string pure_path * storage :=
  let correlation_id := correlation_id voicemail_msg in
  let '(raised, st1) := mkdir_work io correlation_id st in
  if raised then
    (∅, (_cleanup_correlation_files (store_cleanup io) correlation_id true st1).1.2)
  else
    foldl (store_one io correlation_id) (∅, st1)
          (imap pair (audio_attachments voicemail_msg)).
End Store.

End FileManager.

(* --------------------------------------------------------------------- *)
(** ** Orchestrator ([app/tasks/email_tasks.py]) *)
(* --------------------------------------------------------------------- *)

Module EmailTasks.
Import PyStr PurePath Messages Transcription EmailProcessor FileManager.

(** Everything outside the pipeline that one invocation meets. *)
Record env := {
  storage_path : pure_path;
  on_store : store_io;
  transcribe_audio : nat → AudioAttachment → gathered;
  completion : list nat;
  _send_email : EnhancedEmail → list string → bool;
  on_cleanup : cleanup_io
}.

(** The [except Exception as e] branch: best-effort cleanup into the
    failed area, then the failure record; [forwarded] is still [False]
    whenever this branch is reached. *)
Definition on_error (e : env) (correlation_id : string) (err : string)
    (transcription_results : list (option TranscriptionResult))
    (st : storage) : ProcessingResult * storage :=
  let '(files_cleaned, st', _) :=
    cleanup_correlation_files (on_cleanup e) correlation_id false st in
  ({| pr_correlation_id := correlation_id;
      success := false;
      transcriptions_count := length (successful transcription_results);
      error_message := Some err;
      pr_processing_time_ms := 0;
      forwarded := false;
      files_cleaned := files_cleaned |}, st').

(** Step 1, store audio files temporarily: whether the step found
    nothing stored although audio was there, and the storage afterwards. *)
Definition step_store (e : env) (voicemail_msg : VoicemailMessage)
    (st : storage) : bool * storage :=
  if has_audio_attachments voicemail_msg
  then
    let '(stored_files, st') :=
      store_voicemail_files (storage_path e) (on_store e) voicemail_msg st in
    ((size stored_files =? 0)%nat, st')
  else (false, st).

(** Step 2, transcribe audio files. *)
Definition step_transcribe (e : env) (voicemail_msg : VoicemailMessage)
    : list (option TranscriptionResult) :=
  if has_audio_attachments voicemail_msg
  then transcribe_multiple (transcribe_audio e) (completion e)
         (audio_attachments voicemail_msg)
  else [].

(** Step 3, enhance and forward email; the message carries the successful
    results by then. *)
Definition step_forward (e : env) (voicemail_msg : VoicemailMessage)
    (transcription_results : list (option TranscriptionResult)) : bool :=
  let voicemail_msg' :=
    if has_audio_attachments voicemail_msg
    then set_transcription_results voicemail_msg
           (successful transcription_results)
    else voicemail_msg in
  enhance_and_forward (_send_email e) voicemail_msg' transcription_results.

Definition _process_voicemail_async (e : env)
    (voicemail_msg : VoicemailMessage) (st : storage)
    : ProcessingResult * storage :=
  let correlation_id := correlation_id voicemail_msg in
  let '(nothing_stored, st1) := step_store e voicemail_msg st in
  if nothing_stored then
    on_error e correlation_id "Failed to store audio files for processing" [] st1
  else
    let transcription_results := step_transcribe e voicemail_msg in
    let forwarded := step_forward e voicemail_msg transcription_results in
    if negb forwarded then
      on_error e correlation_id "Failed to forward enhanced email"
        transcription_results st1
    else
      (* Step 4: clean up temporary files *)
      let '(files_cleaned, st2, _) :=
        cleanup_correlation_files (on_cleanup e) correlation_id true st1 in
      ({| pr_correlation_id := correlation_id;
          success := true;
          transcriptions_count := length (successful transcription_results);
          error_message := None;
          pr_processing_time_ms := 0;
          forwarded := forwarded;
          files_cleaned := files_cleaned |}, st2).

End EmailTasks.

(* --------------------------------------------------------------------- *)
(** ** Sample data, after [tests/conftest.py] *)
(* --------------------------------------------------------------------- *)

Module Samples.
Import PyStr PyFloat PurePath Messages Transcription EmailProcessor FileManager
       EmailTasks.

(** The first bytes of a WAV header. *)
Definition sample_wav_data : list Z := [82; 73; 70; 70; 36; 0; 0; 0].

Definition audio_attachment : AudioAttachment :=
  {| filename := "voicemail_test.wav"; content_type := "audio/wav";
     size_bytes := 8; data := sample_wav_data |}.

Definition call_me_back : TranscriptionResult :=
  {| transcript := "call me back"; confidence := f0_95;
     language_code := "en-US"; alternatives := [];
     processing_time_ms := 1500 |}.

(** A message with one WAV payload. *)
Definition voicemail_message : VoicemailMessage :=
  {| correlation_id := "req_0123456789ab";
     message_id := "<test123@company.com>";
     sender := "avaya@company.com";
     recipients := ["user@company.com"];
     subject := "Voicemail from John Doe";
     body_text := Some "You have a new voicemail message.";
     body_html := None;
     audio_attachments := [audio_attachment];
     transcription_results := [] |}.

(** A message without audio. *)
Definition hello_message : VoicemailMessage :=
  {| correlation_id := "req_ba9876543210";
     message_id := "<hello@company.com>";
     sender := "alice@company.com";
     recipients := ["user@company.com"];
     subject := "Hello";
     body_text := Some "hi";
     body_html := None;
     audio_attachments := [];
     transcription_results := [] |}.


Definition empty_storage : storage :=
  {| temp := ∅; processed := ∅; failed := ∅ |}.

Definition two_files : gmap string (list Z) :=
  {[ "audio_00_817b7c65.wav" := sample_wav_data; "audio_01_817b7c65.wav" := [1; 2] ]}.

(** The id sits in the working area and, from an earlier failed attempt,
    in the failed area. *)
Definition retried_storage : storage :=
  {| temp := {[ "req_0123456789ab" := Dir 2000 two_files ]};
     processed := ∅;
     failed := {[ "req_0123456789ab" := Dir 1000 ∅ ]} |}.

(** The move raises, leaving the work directory in place, and so does the
    fallback delete. *)
Definition stuck_io : cleanup_io :=
  {| rm_target := RmDone;
     mv := MvRaises (Some (Dir 2000 two_files)) None;
     rm_work := RmRaises (Some (Dir 2000 two_files)) |}.



Definition plain_store_io : store_io :=
  {| clock := 1000; mkdir_raises := false;
     write := λ _ a, Wrote (data a); store_cleanup := no_faults |}.

(** An invocation in which storage and transcription work, and the
    outbound hand-over answers [sent]. *)
Definition env_with (sent : bool) : env :=
  {| storage_path := of_str "/app/storage";
     on_store := plain_store_io;
     transcribe_audio := λ _ _, Returned (Some call_me_back);
     completion := [0%nat];
     _send_email := λ _ _, sent;
     on_cleanup := no_faults |}.

End Samples.

(* --------------------------------------------------------------------- *)
(** ** One transcription call ([app/services/transcription.py]) *)
(* --------------------------------------------------------------------- *)

Module SpeechCall.
Import PyStr Messages Transcription.

(** The members of [speech.RecognitionConfig.AudioEncoding] that the
    service and its tests name. *)
Inductive AudioEncoding := LINEAR16 | FLAC | OGG_OPUS | AMR | AMR_WB | MP3.

Definition _get_audio_encoding (content_type : string) : AudioEncoding :=
  let content_type_lower := lower content_type in
  if contains "wav" content_type_lower then LINEAR16
  else if contains "mp3" content_type_lower
          || contains "mpeg" content_type_lower then LINEAR16
  else if contains "flac" content_type_lower then FLAC
  else if contains "ogg" content_type_lower then OGG_OPUS
  else if contains "amr" content_type_lower then AMR
  else if contains "amr-wb" content_type_lower then AMR_WB
  else LINEAR16.

(** The fields of [GoogleConfig] the call reads. *)
Record GoogleConfig := {
  g_language_code : string;
  g_model : string;
  max_alternatives : Z
}.

(** One [alternatives] entry of a recognition result. *)
Record SpeechAlternative := {
  alt_transcript : string;
  alt_confidence : spec_float
}.

(** What [client.recognize] does: it raises, or it answers with results,
    each a list of alternatives, best first. *)
Inductive recognize_outcome :=
| RecognizeRaises (err : string)
| RecognizeResponse (results : list (list SpeechAlternative)).

(** [_perform_transcription]: every exception becomes [None]. *)
Definition _perform_transcription (recognize : recognize_outcome)
    : option (list (list SpeechAlternative)) :=
  match recognize with
  | RecognizeRaises _ => None
  | RecognizeResponse results => Some results
  end.

(** [l[1:stop]] *)
Definition slice_from_1 {A} (stop : Z) (l : list A) : list A :=
  let n := Z.of_nat (length l) in
  let stop' := if stop <? 0 then Z.max (stop + n) 0 else Z.min stop n in
  take (Z.to_nat (stop' - 1)) (drop 1 l).

(** The floats [0.0] and [1.0]. *)
Definition f0 : spec_float := S754_zero false.
Definition f1 : spec_float := S754_finite false 4503599627370496 (-52).

(** [0.0 <= v <= 1.0], the test of [validate_confidence]; a NaN fails it. *)
Definition confidence_in_range (v : spec_float) : bool :=
  SFleb f0 v && SFleb v f1.

(** [transcribe_audio]: [recognize] is what the API call does if it is
    made, [elapsed_ms] the measured processing time.  Each [return None]
    and each caught exception of the source gives [None].  Word
    timestamps are left out: [enable_word_time_offsets] is off unless
    configured, and the result record of [Messages] has no such field. *)
Definition transcribe_audio (config : GoogleConfig)
    (recognize : recognize_outcome) (elapsed_ms : Z)
    (audio_attachment : AudioAttachment) : option TranscriptionResult :=
  match data audio_attachment with
  | [] => None
  | _ :: _ =>
      match _perform_transcription recognize with
      | None => None
      | Some [] => None
      | Some (result :: _) =>
          match result with
          | [] => None
          | alternative :: _ =>
              let alternatives :=
                map alt_transcript
                    (slice_from_1 (max_alternatives config) result) in
              if confidence_in_range (alt_confidence alternative)
              then Some {| transcript := alt_transcript alternative;
                           confidence := alt_confidence alternative;
                           language_code := g_language_code config;
                           alternatives := alternatives;
                           processing_time_ms := elapsed_ms |}
              else None
          end
      end
  end.

End SpeechCall.

(* --------------------------------------------------------------------- *)
(** ** HTML escaping and headers ([app/services/email_processor.py]) *)
(* --------------------------------------------------------------------- *)

Module HtmlEscape.
Import PyStr.

(** [s.replace(old, new)] for a one-character [old]. *)
Fixpoint replace_char (old : ascii) (new : string) (s : string) : string :=
  match s with
  | EmptyString => EmptyString
  | String a s' =>
      (if Ascii.eqb a old then new else String a EmptyString)
      +:+ replace_char old new s'
  end.

(** The double and the single quote character. *)
Definition dquote : ascii := "034"%char.
Definition squote : ascii := "039"%char.

(** The characters [_html_escape] replaces. *)
Definition specials : list ascii := ["&"; "<"; ">"; dquote; squote]%char.

Definition _html_escape (text : string) : string :=
  replace_char squote "&#39;"
    (replace_char dquote "&quot;"
       (replace_char ">" "&gt;"
          (replace_char "<" "&lt;"
             (replace_char "&" "&amp;" text)))).

End HtmlEscape.

Module EnhancedHeaders.
Import PyStr Messages EmailProcessor.

Definition skip_headers : list string :=
  ["message-id"; "date"; "from"; "to"; "cc"; "bcc"; "subject";
   "content-type"; "content-transfer-encoding"; "mime-version"].

(** [header.lower() not in skip_headers] *)
Definition kept (header : string * string) : bool :=
  negb (bool_decide (lower header.1 ∈ skip_headers)).

(** The headers of the message [_create_enhanced_email] builds, in the
    order they are added: the two that [MIMEMultipart("alternative")]
    starts with, the original headers that are not skipped (in the order
    of [voicemail_msg.headers]), and the five set afterwards. *)
Definition enhanced_headers (headers : list (string * string))
    (voicemail_msg : VoicemailMessage)
    (transcription_results : list (option TranscriptionResult))
    : list (string * string) :=
  [("Content-Type", "multipart/alternative"); ("MIME-Version", "1.0")]
  ++ List.filter kept headers
  ++ [("From", sender voicemail_msg);
      ("To", join ", " (recipients voicemail_msg));
      ("Subject", _enhance_subject (subject voicemail_msg) transcription_results);
      ("X-Transcription-Enhanced", "true");
      ("X-Correlation-ID", correlation_id voicemail_msg)].

(** [msg.get_all(name)]: the values of the headers of that name, the
    comparison ignoring case. *)
Definition get_all (name : string) (headers : list (string * string))
    : list string :=
  map snd (List.filter (λ h, String.eqb (lower h.1) (lower name)) headers).

End EnhancedHeaders.

(* --------------------------------------------------------------------- *)
(** ** Outbound SMTP ([app/services/email_processor.py]) *)
(* --------------------------------------------------------------------- *)

Module SmtpSend.

(** The fields of [OutboundSMTPConfig] that decide which calls are made. *)
Record OutboundSMTPConfig := {
  use_tls : bool;
  use_ssl : bool;
  user : string;
  password : string
}.

(** The calls on [smtplib]: opening [SMTP_SSL], opening [SMTP],
    [starttls], [login], [send_message], [quit]. *)
Inductive smtp_call := ConnectSSL | Connect | StartTLS | Login | SendMessage | Quit.

Global Instance smtp_call_eq_dec : EqDecision smtp_call.
Proof. solve_decision. Defined.

(** Python truthiness of a [str]. *)
Definition nonempty (s : string) : bool :=
  match s with
  | EmptyString => false
  | String _ _ => true
  end.

Section Session.
(** Whether a call raises when it is made. *)
Variable raises : smtp_call → bool.

(** A sequence of calls, made until one raises: whether all went
    through, and the calls made. *)
Fixpoint attempt (calls : list smtp_call) : bool * list smtp_call :=
  match calls with
  | [] => (true, [])
  | c :: rest =>
      if raises c then (false, [c])
      else let '(ok, made) := attempt rest in (ok, c :: made)
  end.

(** The calls [_create_smtp_client_sync] makes when none raises. *)
Definition setup_calls (config : OutboundSMTPConfig) : list smtp_call :=
  (if use_ssl config then [ConnectSSL]
   else Connect :: (if use_tls config then [StartTLS] else []))
  ++ (if nonempty (user config) && nonempty (password config)
      then [Login] else []).

(** [_create_smtp_client_sync]: whether a client is returned (any
    exception gives [None]), and the calls made. *)
Definition _create_smtp_client_sync (config : OutboundSMTPConfig)
    : bool * list smtp_call :=
  attempt (setup_calls config).

(** [_send_email_sync]: the returned flag and the calls made.  Without a
    client nothing more happens; with one, [send_message] is called, and
    the [finally] clause calls [quit], ignoring what it raises. *)
Definition _send_email_sync (config : OutboundSMTPConfig)
    : bool * list smtp_call :=
  let '(client, made) := _create_smtp_client_sync config in
  if client
  then (negb (raises SendMessage), made ++ [SendMessage; Quit])
  else (false, made).
End Session.

End SmtpSend.

(* --------------------------------------------------------------------- *)
(** ** Predicates on the storage *)
(* --------------------------------------------------------------------- *)

Module StorePredicates.
Import PyStr PurePath Messages FileManager.

(** What the loop of [store_voicemail_files] has established after the
    attachments [l] of the message with id [cid], when every write lands
    the payload bytes: paths for the filenames of [l], the payloads in the
    work directory under their stored names, nothing else changed since
    [st0]. *)
Definition stored_all (cid : string) (st0 : storage) (l : list AudioAttachment)
    (acc : gmap string pure_path * storage) : Prop :=
  processed acc.2 = processed st0
  ∧ failed acc.2 = failed st0
  ∧ (∀ k, k ≠ cid → temp acc.2 !! k = temp st0 !! k)
  ∧ (∀ name, is_Some (acc.1 !! name) ↔ ∃ a, a ∈ l ∧ filename a = name)
  ∧ ∃ mtime entries,
      temp acc.2 !! cid = Some (Dir mtime entries)
      ∧ ∀ i a, l !! i = Some a →
          entries !! _generate_safe_filename (filename a) i = Some (data a).

(** [st'] differs from [st] at most in the work directory of [cid], and
    holds it as a directory. *)
Definition work_dir_only (cid : string) (st st' : storage) : Prop :=
  work_dir_present cid st'
  ∧ processed st' = processed st
  ∧ failed st' = failed st
  ∧ ∀ k, k ≠ cid → temp st' !! k = temp st !! k.

End StorePredicates.

(* --------------------------------------------------------------------- *)
(** ** Correlation ids ([app/utils/correlation.py]) *)
(* --------------------------------------------------------------------- *)

Module CorrelationId.
Import PyStr.

(** [generate_correlation_id], given the value of [uuid.uuid4().hex]. *)
Definition generate_correlation_id (uuid4_hex : string) : string :=
  "req_" +:+ take_str 12 uuid4_hex.

End CorrelationId.

(* --------------------------------------------------------------------- *)
(** ** Building the message ([app/models/messages.py]) *)
(* --------------------------------------------------------------------- *)

Module InboundMessage.
Import PyStr Messages.

(** [c.isspace()] on the code points 0..255. *)
Definition is_space (c : ascii) : bool :=
  let n := N_of_ascii c in
  (((9 <=? n) && (n <=? 13)) || ((28 <=? n) && (n <=? 32))
   || (n =? 133) || (n =? 160))%N.

(** [s.lstrip()], [s.rstrip()], [s.strip()] *)
Fixpoint lstrip (s : string) : string :=
  match s with
  | EmptyString => EmptyString
  | String a s' => if is_space a then lstrip s' else s
  end.
Definition rstrip (s : string) : string := String.rev (lstrip (String.rev s)).
Definition strip (s : string) : string := rstrip (lstrip s).

(** [s[0]] and [s[-1]], where they exist. *)
Definition first_char (s : string) : option ascii :=
  match s with
  | EmptyString => None
  | String a _ => Some a
  end.
Fixpoint last_char (s : string) : option ascii :=
  match s with
  | EmptyString => None
  | String a s' =>
      match last_char s' with
      | Some b => Some b
      | None => Some a
      end
  end.

(** The addresses one header contributes: [value] is
    [email_msg.get(header)]. *)
Definition header_recipients (value : option string) : list string :=
  match value with
  | Some (String a v) => map strip (split ","%char (String a v))
  | _ => []
  end.

(** The recipients loop of [from_email_message] over [To], [Cc], [Bcc]. *)
Definition parse_recipients (to cc bcc : option string) : list string :=
  header_recipients to ++ header_recipients cc ++ header_recipients bcc.

(** What [part.get_content()] hands back for the parts the loop handles. *)
Inductive part_content :=
| PartStr (text : string)
| PartBytes (bytes : list Z).

(** One part of [email_msg.walk()], as the attachment loop reads it. *)
Record mime_part := {
  content_disposition : string;
  get_filename : option string;
  get_content_type : string;
  get_content : part_content
}.

(** The entries of [other_attachments]. *)
Record OtherAttachment := {
  o_filename : string;
  o_content_type : string;
  o_size_bytes : Z;
  o_data : list Z
}.

(** [AudioAttachment.validate_audio_type]: [None] stands for the
    [ValueError]. *)
Definition validate_audio_type (v : string) : option string :=
  if negb (startswith v "audio/") then None else Some v.

(** The constructor [AudioAttachment(...)], which runs the validator. *)
Definition new_AudioAttachment (filename content_type : string)
    (size_bytes : Z) (data : list Z) : option AudioAttachment :=
  match validate_audio_type content_type with
  | Some v => Some {| filename := filename; content_type := v;
                      size_bytes := size_bytes; data := data |}
  | None => None
  end.

(** One round of the attachment loop; the state is
    [(audio_attachments, other_attachments)], and [None] an exception
    from the constructor. *)
Definition attachment_step
    (acc : option (list AudioAttachment * list OtherAttachment))
    (part : mime_part)
    : option (list AudioAttachment * list OtherAttachment) :=
  match acc with
  | None => None
  | Some (audio_attachments, other_attachments) =>
      if contains "attachment" (content_disposition part) then
        let filename :=
          match get_filename part with
          | Some (String a f) => String a f
          | _ => "unknown"
          end in
        let content_type := get_content_type part in
        let data :=
          match get_content part with
          | PartStr text => encode text
          | PartBytes bytes => bytes
          end in
        if startswith content_type "audio/" then
          match new_AudioAttachment filename content_type
                  (Z.of_nat (length data)) data with
          | Some a => Some (audio_attachments ++ [a], other_attachments)
          | None => None
          end
        else
          Some (audio_attachments,
                other_attachments
                ++ [{| o_filename := filename; o_content_type := content_type;
                       o_size_bytes := Z.of_nat (length data);
                       o_data := data |}])
      else Some (audio_attachments, other_attachments)
  end.

(** The attachment extraction of [from_email_message]: [parts] is what
    [email_msg.walk()] yields. *)
Definition extract_attachments (is_multipart : bool) (parts : list mime_part)
    : option (list AudioAttachment * list OtherAttachment) :=
  if is_multipart then foldl attachment_step (Some ([], [])) parts
  else Some ([], []).

(** ["attachment" in content_disposition] *)
Definition is_attachment (part : mime_part) : bool :=
  contains "attachment" (content_disposition part).

(** An audio attachment as the loop builds them: an audio content type,
    and a declared size that is the length of the data. *)
Definition well_formed (a : AudioAttachment) : Prop :=
  startswith (content_type a) "audio/" = true
  ∧ size_bytes a = Z.of_nat (length (data a)).

Definition get_total_audio_size (m : VoicemailMessage) : Z :=
  foldr (λ attachment total, size_bytes attachment + total) 0
        (audio_attachments m).

End InboundMessage.

(* --------------------------------------------------------------------- *)
(** ** Accepting a message ([app/smtp/handler.py]) *)
(* --------------------------------------------------------------------- *)

Module SmtpHandler.
Import PyStr Messages InboundMessage.

(** [StorageConfig.max_audio_size_bytes] *)
Definition max_audio_size_bytes (max_audio_size_mb : Z) : Z :=
  max_audio_size_mb * 1024 * 1024.

(** [handle_DATA]: [parsed] is the message [from_email_message] built
    ([None] when parsing or building raised), [delay_raises] whether
    queueing the task raises.  The result is the SMTP reply and the
    message handed to the queue, if any. *)
Definition handle_DATA (max_audio_size_mb : Z)
    (parsed : option VoicemailMessage) (delay_raises : bool)
    : string * option VoicemailMessage :=
  match parsed with
  | None => ("451 Requested action aborted: local error in processing", None)
  | Some voicemail_msg =>
      let total_audio_size := get_total_audio_size voicemail_msg in
      let max_size := max_audio_size_bytes max_audio_size_mb in
      if max_size <? total_audio_size
      then ("552 Message size exceeds maximum allowed", None)
      else if delay_raises
      then ("451 Requested action aborted: local error in processing", None)
      else ("250 Message accepted for delivery", Some voicemail_msg)
  end.

End SmtpHandler.

(* --------------------------------------------------------------------- *)
(** ** The logging calls ([app/utils/logging.py]) *)
(* --------------------------------------------------------------------- *)

Module Logging.

(** The numeric levels of [logging]. *)
Definition DEBUG : Z := 10.
Definition INFO : Z := 20.
Definition WARNING : Z := 30.
Definition ERROR : Z := 40.
Definition CRITICAL : Z := 50.

(** [logger.isEnabledFor(levelno)], for a logger whose effective level is
    [effective]. *)
Definition isEnabledFor (effective levelno : Z) : bool :=
  effective <=? levelno.

(** The attributes a fresh [LogRecord] carries, with [message] and
    [asctime]: the keys [Logger.makeRecord] refuses in [extra]. *)
Definition reserved : list string :=
  ["message"; "asctime"; "name"; "msg"; "args"; "levelname"; "levelno";
   "pathname"; "filename"; "module"; "exc_info"; "exc_text"; "stack_info";
   "lineno"; "funcName"; "created"; "msecs"; "relativeCreated"; "thread";
   "threadName"; "processName"; "process"].

(** [LoggerMixin.log_debug(msg, **kwargs)] and its siblings call
    [logger.<level>(msg, extra=kwargs)].  Below the effective level nothing
    happens; at or above it [makeRecord] builds the record and raises
    [KeyError] for a reserved key.  The result is whether the call raises. *)
Definition log_raises (effective levelno : Z) (kwargs : list string) : bool :=
  isEnabledFor effective levelno
  && existsb (λ key, bool_decide (key ∈ reserved)) kwargs.

(** What a call hands to its caller: a value, or an exception. *)
Inductive outcome (A : Type) :=
| Returns (a : A)
| Raises.
Arguments Returns {A} a.
Arguments Raises {A}.

End Logging.

(* --------------------------------------------------------------------- *)
(** ** The fan-out with its logging call
       ([app/services/transcription.py]) *)
(* --------------------------------------------------------------------- *)

Module LoggedTranscription.
Import Messages Transcription Logging.

Section FanOut.
(** The effective level of the service's logger. *)
Variable level : Z.
(** The outcome of the call issued for the attachment at position [i]. *)
Variable transcribe_audio : nat → AudioAttachment → gathered.

(** One round of the [for i, result in enumerate(results)] loop.  In the
    branch [isinstance(result, Exception)] the source calls [log_error]
    with the keywords [filename] and [error], and appends [None] after
    it; the other two branches log nothing.  The state is the one of
    [Transcription.collect], or the exception that has left the loop. *)
Definition collect
    (acc : outcome (list (option TranscriptionResult) * nat))
    (result : gathered)
    : outcome (list (option TranscriptionResult) * nat) :=
  match acc with
  | Raises => Raises
  | Returns so_far =>
      match result with
      | Raised _ =>
          if log_raises level ERROR ["filename"; "error"]
          then Raises
          else Returns (Transcription.collect so_far result)
      | Returned _ => Returns (Transcription.collect so_far result)
      end
  end.

(** [transcribe_multiple]: nothing in it catches an exception of the
    loop, so that exception leaves the method. *)
Definition transcribe_multiple (completion : list nat)
    (audio_attachments : list AudioAttachment)
    : outcome (list (option TranscriptionResult)) :=
  match audio_attachments with
  | [] => Returns []
  | _ =>
      let results := gather transcribe_audio completion audio_attachments in
      match foldl collect (Returns ([], 0%nat)) results with
      | Returns acc => Returns acc.1
      | Raises => Raises
      end
  end.
End FanOut.

End LoggedTranscription.

(* --------------------------------------------------------------------- *)
(** ** Persisting the payloads, with the logging calls
       ([app/services/file_manager.py]) *)
(* --------------------------------------------------------------------- *)

Module LoggedFileManager.
Import PyStr PurePath Messages FileManager Logging.

(** A write that leaves on disk as many bytes as the payload has. *)
Definition lands (o : write_outcome) (attachment : AudioAttachment) : bool :=
  match o with
  | Wrote on_disk => bool_decide (length on_disk = length (data attachment))
  | WriteRaises _ => false
  end.

Section Store.
(** [config.path] *)
Variable storage_path : pure_path.
(** The effective level of the service's logger. *)
Variable level : Z.

(** [_store_audio_file].  [FileManager._store_audio_file] is the body of
    its [try] up to the size check: a path, or [None] for an exception
    raised there.  After the check comes [log_debug] with the keywords
    [filename], [stored_path], [size_bytes]; an exception of the body or of
    that call reaches the [except] branch, which calls [log_error] with the
    keywords [filename], [size_bytes] before it returns [None]. *)
Definition _store_audio_file (io : store_io) (correlation_id : string)
    (attachment : AudioAttachment) (index : nat) (st : storage)
    : outcome (option pure_path) * storage :=
  let '(body, st') :=
    FileManager._store_audio_file storage_path io correlation_id
      attachment index st in
  let except : outcome (option pure_path) :=
    if log_raises level ERROR ["filename"; "size_bytes"]
    then Raises else Returns None in
  match body with
  | Some file_path =>
      if log_raises level DEBUG ["filename"; "stored_path"; "size_bytes"]
      then (except, st')
      else (Returns (Some file_path), st')
  | None => (except, st')
  end.

(** The [for i, attachment in enumerate(...)] loop over the remaining
    [items]; an exception of [_store_audio_file] leaves it. *)
Fixpoint store_loop (io : store_io) (correlation_id : string)
    (items : list (nat * AudioAttachment))
    (stored_files : gmap string pure_path) (st : storage)
    : outcome (gmap string pure_path) * storage :=
  match items with
  | [] => (Returns stored_files, st)
  | (i, attachment) :: rest =>
      match _store_audio_file io correlation_id attachment i st with
      | (Returns (Some file_path), st') =>
          store_loop io correlation_id rest
            (<[filename attachment := file_path]> stored_files) st'
      | (Returns None, st') =>
          store_loop io correlation_id rest stored_files st'
      | (Raises, st') => (Raises, st')
      end
  end.

(** [store_voicemail_files]: its [except] branch calls
    [_cleanup_correlation_files(correlation_id)], that is with
    [success=True], and returns the empty dictionary. *)
Definition store_voicemail_files (io : store_io)
    (voicemail_msg : VoicemailMessage) (st : storage)
    : gmap string pure_path * storage :=
  let correlation_id := correlation_id voicemail_msg in
  let '(raised, st1) := mkdir_work io correlation_id st in
  if raised then
    (∅, (_cleanup_correlation_files (store_cleanup io) correlation_id true st1).1.2)
  else
    match store_loop io correlation_id
            (imap pair (audio_attachments voicemail_msg)) ∅ st1 with
    | (Returns stored_files, st2) => (stored_files, st2)
    | (Raises, st2) =>
        (∅, (_cleanup_correlation_files (store_cleanup io) correlation_id
               true st2).1.2)
    end.
End Store.

End LoggedFileManager.

(* --------------------------------------------------------------------- *)
(** ** The orchestrator over the services ([app/tasks/email_tasks.py]) *)
(* --------------------------------------------------------------------- *)

Module Worker.
Import PyStr PurePath Messages Transcription EmailProcessor FileManager
       EmailTasks SpeechCall.

(** What one invocation of the worker meets: the configuration of the
    three services and the behaviour of what lies outside them. *)
Record services := {
  log_level : Z;
  google : GoogleConfig;
  path : pure_path;
  store : store_io;
  recognize : nat → AudioAttachment → recognize_outcome;
  elapsed_ms : nat → AudioAttachment → Z;
  finished : list nat;
  send : EnhancedEmail → list string → bool;
  cleanup : cleanup_io
}.

(** The call [transcription_service.transcribe_audio(attachment)] that
    [transcribe_multiple] issues for position [i]: it catches every
    exception, so [gather] always gets a returned value. *)
Definition transcribe_call (s : services) (i : nat)
    (attachment : AudioAttachment) : gathered :=
  Returned (SpeechCall.transcribe_audio (google s) (recognize s i attachment)
              (elapsed_ms s i attachment) attachment).

(** The services as the steps of [EmailTasks] take them. *)
Definition env_of (s : services) : env :=
  {| storage_path := path s;
     on_store := store s;
     EmailTasks.transcribe_audio := transcribe_call s;
     completion := finished s;
     _send_email := send s;
     on_cleanup := cleanup s |}.

(** Step 1, store audio files temporarily, with the logging calls of the
    file manager. *)
Definition step_store (s : services) (voicemail_msg : VoicemailMessage)
    (st : storage) : bool * storage :=
  if has_audio_attachments voicemail_msg
  then
    let '(stored_files, st') :=
      LoggedFileManager.store_voicemail_files (path s) (log_level s)
        (store s) voicemail_msg st in
    ((size stored_files =? 0)%nat, st')
  else (false, st).

Definition _process_voicemail_async (s : services)
    (voicemail_msg : VoicemailMessage) (st : storage)
    : ProcessingResult * storage :=
  let correlation_id := correlation_id voicemail_msg in
  let '(nothing_stored, st1) := step_store s voicemail_msg st in
  if nothing_stored then
    on_error (env_of s) correlation_id
      "Failed to store audio files for processing" [] st1
  else
    let transcription_results := step_transcribe (env_of s) voicemail_msg in
    let forwarded :=
      step_forward (env_of s) voicemail_msg transcription_results in
    if negb forwarded then
      on_error (env_of s) correlation_id "Failed to forward enhanced email"
        transcription_results st1
    else
      (* Step 4: clean up temporary files *)
      let '(files_cleaned, st2, _) :=
        cleanup_correlation_files (cleanup s) correlation_id true st1 in
      ({| pr_correlation_id := correlation_id;
          success := true;
          transcriptions_count := length (successful transcription_results);
          error_message := None;
          pr_processing_time_ms := 0;
          forwarded := forwarded;
          files_cleaned := files_cleaned |}, st2).

End Worker.

(* --------------------------------------------------------------------- *)
(** ** More sample data *)
(* --------------------------------------------------------------------- *)

Module MoreSamples.
Import PyStr PyFloat PurePath Messages Transcription SpeechCall SmtpSend
       FileManager EmailTasks InboundMessage.

(** [GoogleConfig] with its defaults. *)
Definition default_google : GoogleConfig :=
  {| g_language_code := "en-US"; g_model := "telephony"; max_alternatives := 1 |}.

Definition one_result : recognize_outcome :=
  RecognizeResponse
    [[{| alt_transcript := "call me back"; alt_confidence := f0_95 |};
      {| alt_transcript := "call me bag"; alt_confidence := f0_95 |}]].

(** [OutboundSMTPConfig] with its defaults. *)
Definition default_outbound : OutboundSMTPConfig :=
  {| use_tls := true; use_ssl := false;
     user := "user@example.com"; password := "password" |}.

Definition starttls_raises (c : smtp_call) : bool :=
  bool_decide (c = StartTLS).

(** A store in which the work directory cannot be made. *)
Definition no_mkdir_io : store_io :=
  {| clock := 1000; mkdir_raises := true;
     write := λ _ a, Wrote (data a); store_cleanup := no_faults |}.

Definition env_no_mkdir (sent : bool) : env :=
  {| storage_path := of_str "/app/storage";
     on_store := no_mkdir_io;
     transcribe_audio := λ _ _, Returned None;
     completion := [0%nat];
     _send_email := λ _ _, sent;
     on_cleanup := no_faults |}.

(** A store in which every write leaves an empty file. *)
Definition empty_write_io : store_io :=
  {| clock := 1000; mkdir_raises := false;
     write := λ _ _, Wrote []; store_cleanup := no_faults |}.

(** The worker at log level [level], with the store behaving as [io], the
    API answering [one_result] and the outbound hand-over answering
    [sent]. *)
Definition services_with (level : Z) (io : store_io) (sent : bool)
    : Worker.services :=
  {| Worker.log_level := level;
     Worker.google := default_google;
     Worker.path := of_str "/app/storage";
     Worker.store := io;
     Worker.recognize := λ _ _, one_result;
     Worker.elapsed_ms := λ _ _, 1500;
     Worker.finished := [0%nat];
     Worker.send := λ _ _, sent;
     Worker.cleanup := no_faults |}.

(** A message whose recipients come from a [To] and a [Bcc] header. *)
Definition bcc_message : VoicemailMessage :=
  {| correlation_id := "req_0123456789ab";
     message_id := "<test123@company.com>";
     sender := "avaya@company.com";
     recipients :=
       parse_recipients (Some "user@company.com") None
         (Some "boss@company.com, audit@company.com");
     subject := "Voicemail";
     body_text := None;
     body_html := None;
     audio_attachments := [];
     transcription_results := [] |}.

(** A message whose single payload declares more than one megabyte. *)
Definition large_message : VoicemailMessage :=
  {| correlation_id := "req_0123456789ab";
     message_id := "<big@company.com>";
     sender := "avaya@company.com";
     recipients := ["user@company.com"];
     subject := "Voicemail";
     body_text := None;
     body_html := None;
     audio_attachments :=
       [{| filename := "big.wav"; content_type := "audio/wav";
           size_bytes := 1048577; data := [] |}];
     transcription_results := [] |}.

(** A multipart message: a text part, an audio attachment and a PDF. *)
Definition sample_parts : list mime_part :=
  [{| content_disposition := ""; get_filename := None;
      get_content_type := "text/plain"; get_content := PartStr "hi" |};
   {| content_disposition := "attachment; filename=v.wav";
      get_filename := Some "v.wav"; get_content_type := "audio/wav";
      get_content := PartBytes [82; 73; 70; 70] |};
   {| content_disposition := "attachment"; get_filename := None;
      get_content_type := "application/pdf";
      get_content := PartStr "%PDF" |}].

End MoreSamples.

(* ===================================================================== *)
(** * Properties *)
(* ===================================================================== *)

Module PyStrSpec.
Import PyStr.

Lemma app_String a s t : String a s +:+ t = String a (s +:+ t).
Proof. reflexivity. Qed.

Lemma app_nil_l s : "" +:+ s = s.
Proof. reflexivity. Qed.

Lemma app_nil_r s : s +:+ "" = s.
Proof. induction s as [|a s IH]; [done|]. by rewrite app_String, IH. Qed.

Lemma app_assoc s t u : (s +:+ t) +:+ u = s +:+ t +:+ u.
Proof. induction s as [|a s IH]; [done|]. by rewrite !app_String, IH. Qed.

Lemma app_length s t :
  String.length (s +:+ t) = (String.length s + String.length t)%nat.
Proof. induction s as [|a s IH]; [done|]. rewrite app_String. simpl. by rewrite IH. Qed.

Lemma prefix_app p s : String.prefix p (p +:+ s) = true.
Proof.
  induction p as [|a p IH]; [by destruct s|].
  rewrite app_String. simpl. destruct (ascii_dec a a); [done|congruence].
Qed.

Lemma prefix_inv p s : String.prefix p s = true → ∃ t, s = p +:+ t.
Proof.
  revert s. induction p as [|a p IH]; intros s H.
  - by exists s.
  - destruct s as [|b s]; [done|]. simpl in H.
    destruct (ascii_dec a b) as [->|]; [|done].
    destruct (IH _ H) as [t ->]. by exists t.
Qed.

Lemma startswith_app p s : startswith (p +:+ s) p = true.
Proof. apply prefix_app. Qed.

Lemma occurs_in_refl s : occurs_in s s.
Proof. exists "", "". by rewrite app_nil_r. Qed.

Lemma occurs_in_app_r n h t : occurs_in n h → occurs_in n (h +:+ t).
Proof.
  intros (pre & post & ->). exists pre, (post +:+ t).
  by rewrite !app_assoc.
Qed.

Lemma occurs_in_app_l n h t : occurs_in n h → occurs_in n (t +:+ h).
Proof.
  intros (pre & post & ->). exists (t +:+ pre), post.
  by rewrite !app_assoc.
Qed.

Lemma occurs_in_trans a b c : occurs_in a b → occurs_in b c → occurs_in a c.
Proof.
  intros Hab (pre & post & ->).
  by apply occurs_in_app_l, occurs_in_app_r.
Qed.

Lemma contains_unfold needle hay :
  contains needle hay
  = String.prefix needle hay
    || match hay with
       | EmptyString => false
       | String _ hay' => contains needle hay'
       end.
Proof. by destruct hay. Qed.

(** The executable test [needle in hay] decides [occurs_in]. *)
Lemma contains_occurs needle hay :
  contains needle hay = true ↔ occurs_in needle hay.
Proof.
  split.
  - induction hay as [|a hay IH]; rewrite contains_unfold; intros H.
    + rewrite orb_false_r in H. apply prefix_inv in H as [t ->].
      by exists "", t.
    + apply orb_true_iff in H as [H|H].
      * apply prefix_inv in H as [t Ht]. by exists "", t.
      * destruct (IH H) as (pre & post & ->).
        by exists (String a pre), post.
  - intros (pre & post & ->).
    induction pre as [|a pre IH].
    + rewrite app_nil_l, contains_unfold. by rewrite prefix_app.
    + rewrite app_String, contains_unfold, IH. apply orb_true_r.
Qed.

Lemma join_cons sep x y l :
  join sep (x :: y :: l) = x +:+ sep +:+ join sep (y :: l).
Proof. reflexivity. Qed.

(** Every joined part occurs in the joined string. *)
Lemma occurs_in_join sep x (l : list string) :
  x ∈ l → occurs_in x (join sep l).
Proof.
  induction l as [|y [|z l] IH]; intros Hx.
  - by apply elem_of_nil in Hx.
  - apply list_elem_of_singleton in Hx as ->. apply occurs_in_refl.
  - rewrite join_cons. apply elem_of_cons in Hx as [->|Hx].
    + apply occurs_in_app_r, occurs_in_refl.
    + by apply occurs_in_app_l, occurs_in_app_l, IH.
Qed.

(** *** Characters of a string *)

Lemma has_char_app c s t : has_char c (s +:+ t) = has_char c s || has_char c t.
Proof.
  induction s as [|a s IH]; [done|].
  rewrite app_String. simpl. by rewrite IH, orb_assoc.
Qed.

Lemma has_char_rev_app c s t :
  has_char c (String.rev_app s t) = has_char c s || has_char c t.
Proof.
  revert t. induction s as [|a s IH]; intros t; [done|].
  simpl. rewrite IH. simpl.
  by destruct (Ascii.eqb a c), (has_char c s), (has_char c t).
Qed.

Lemma has_char_drop c k s :
  has_char c s = false → has_char c (drop_str k s) = false.
Proof.
  revert s. induction k as [|k IH]; intros [|a s] H; simpl; try done.
  simpl in H. apply orb_false_iff in H as [_ H]. by apply IH.
Qed.

Lemma forall_chars_app p s t :
  forall_chars p (s +:+ t) = forall_chars p s && forall_chars p t.
Proof.
  induction s as [|a s IH]; [done|].
  rewrite app_String. simpl. by rewrite IH, andb_assoc.
Qed.

Lemma forall_chars_take p k s :
  forall_chars p s = true → forall_chars p (take_str k s) = true.
Proof.
  revert s. induction k as [|k IH]; intros [|a s] H; simpl; try done.
  simpl in H. apply andb_true_iff in H as [-> H]. by apply IH.
Qed.

Lemma take_str_length k s :
  String.length (take_str k s) = Nat.min k (String.length s).
Proof.
  revert s. induction k as [|k IH]; intros [|a s]; simpl; try done.
  by rewrite IH.
Qed.

(** A string made of characters satisfying [p] has no character
    failing [p]. *)
Lemma forall_chars_lacks p c s :
  p c = false → forall_chars p s = true → has_char c s = false.
Proof.
  intros Hc. induction s as [|a s IH]; [done|]. simpl.
  intros [Ha Hs]%andb_true_iff. rewrite IH by done.
  destruct (Ascii.eqb_spec a c) as [->|]; [congruence|done].
Qed.

Lemma lower_char_slash a :
  Ascii.eqb (lower_char a) "/" = Ascii.eqb a "/".
Proof. destruct a as [[] [] [] [] [] [] [] []]; reflexivity. Qed.

Lemma has_char_lower_slash s : has_char "/" (lower s) = has_char "/" s.
Proof.
  induction s as [|a s IH]; [done|]. simpl. by rewrite IH, lower_char_slash.
Qed.

(** *** [split] *)

Lemma split_go_no_sep sep s cur x :
  has_char sep cur = false →
  x ∈ split_go sep cur s → has_char sep x = false.
Proof.
  revert cur. induction s as [|a s IH]; intros cur Hcur; simpl.
  - intros ->%list_elem_of_singleton. unfold String.rev.
    by rewrite has_char_rev_app, Hcur.
  - destruct (Ascii.eqb a sep) eqn:E.
    + intros [->|Hx]%elem_of_cons.
      * unfold String.rev. by rewrite has_char_rev_app, Hcur.
      * by apply (IH "").
    + apply IH. simpl. by rewrite E, Hcur.
Qed.

Lemma split_go_whole sep s cur :
  has_char sep s = false → split_go sep cur s = [String.rev_app cur s].
Proof.
  revert cur. induction s as [|a s IH]; intros cur H; [done|].
  simpl in *. apply orb_false_iff in H as [-> H]. by rewrite IH.
Qed.

Lemma split_whole sep s : has_char sep s = false → split sep s = [s].
Proof. intros H. unfold split. by rewrite split_go_whole. Qed.

(** *** Decimal and padded numerals *)

Lemma is_digit_digit_char d : (d < 10)%N → is_digit (digit_char d) = true.
Proof.
  intros H.
  assert (d = 0 ∨ d = 1 ∨ d = 2 ∨ d = 3 ∨ d = 4 ∨ d = 5 ∨ d = 6 ∨ d = 7
          ∨ d = 8 ∨ d = 9)%N as Hd by lia.
  repeat (destruct Hd as [->|Hd]; [reflexivity|]). by subst.
Qed.

Lemma str_of_N_go_digits fuel n acc :
  forall_chars is_digit acc = true →
  forall_chars is_digit (str_of_N_go fuel n acc) = true.
Proof.
  revert n acc. induction fuel as [|fuel IH]; intros n acc Hacc; [done|].
  cbn [str_of_N_go].
  assert (forall_chars is_digit (String (digit_char (n mod 10)) acc) = true)
    as Hacc'.
  { cbn [forall_chars]. rewrite Hacc, is_digit_digit_char; [done|].
    apply N.mod_lt. lia. }
  destruct (n / 10 =? 0)%N; [done | by apply IH].
Qed.

Lemma str_of_N_digits n : forall_chars is_digit (str_of_N n) = true.
Proof. by apply str_of_N_go_digits. Qed.

Lemma zeros_digits k : forall_chars is_digit (zeros k) = true.
Proof. induction k as [|k IH]; [done|]. simpl. by rewrite IH. Qed.

Lemma zeros_length k : String.length (zeros k) = k.
Proof. induction k as [|k IH]; [done|]. simpl. by rewrite IH. Qed.

Lemma zfill_digits w s :
  forall_chars is_digit s = true → forall_chars is_digit (zfill w s) = true.
Proof. intros H. unfold zfill. by rewrite forall_chars_app, zeros_digits, H. Qed.

Lemma zfill_length w s :
  String.length (zfill w s) = Nat.max w (String.length s).
Proof. unfold zfill. rewrite app_length, zeros_length. lia. Qed.

(** *** The numeral reads back as the number *)

Lemma N_of_str_go_value acc s :
  N_of_str_go acc s
  = (acc * 10 ^ N.of_nat (String.length s) + N_of_str s)%N.
Proof.
  unfold N_of_str. revert acc.
  induction s as [|c s IH]; intros acc.
  - cbn [N_of_str_go String.length]. change (10 ^ N.of_nat 0)%N with 1%N. lia.
  - cbn [N_of_str_go String.length].
    rewrite (IH (10 * acc + _)%N), (IH (10 * 0 + _)%N).
    rewrite Nat2N.inj_succ, N.pow_succ_r'. lia.
Qed.

Lemma digit_char_value d : (d < 10)%N → (N_of_ascii (digit_char d) - 48 = d)%N.
Proof.
  intros H. unfold digit_char. rewrite N_ascii_embedding by lia. lia.
Qed.

Lemma N_of_str_cons_digit d s :
  (d < 10)%N →
  N_of_str (String (digit_char d) s)
  = (d * 10 ^ N.of_nat (String.length s) + N_of_str s)%N.
Proof.
  intros H. unfold N_of_str at 1. cbn [N_of_str_go].
  rewrite N_of_str_go_value, digit_char_value by done. lia.
Qed.

(** With fuel for every binary digit the loop prints all of [n]. *)
Lemma str_of_N_go_value fuel n acc :
  (n < 2 ^ N.of_nat fuel)%N →
  N_of_str (str_of_N_go fuel n acc)
  = (n * 10 ^ N.of_nat (String.length acc) + N_of_str acc)%N.
Proof.
  revert n acc. induction fuel as [|fuel IH]; intros n acc Hn.
  - change (2 ^ N.of_nat 0)%N with 1%N in Hn.
    assert (n = 0%N) as -> by lia. cbn [str_of_N_go]. lia.
  - cbn [str_of_N_go].
    assert (n mod 10 < 10)%N as Hd by (apply N.mod_lt; lia).
    pose proof (N.div_mod n 10 ltac:(lia)) as Hdm.
    destruct (n / 10 =? 0)%N eqn:Hq.
    + apply N.eqb_eq in Hq. rewrite N_of_str_cons_digit by done.
      rewrite Hq in Hdm. replace (n mod 10)%N with n by lia. done.
    + rewrite IH.
      * rewrite N_of_str_cons_digit by done. cbn [String.length].
        rewrite Nat2N.inj_succ, N.pow_succ_r'. nia.
      * rewrite Nat2N.inj_succ, N.pow_succ_r' in Hn.
        apply N.Div0.div_lt_upper_bound; lia.
Qed.

Lemma str_of_N_value n : N_of_str (str_of_N n) = n.
Proof.
  unfold str_of_N. rewrite str_of_N_go_value.
  - cbn [String.length]. change (10 ^ N.of_nat 0)%N with 1%N.
    change (N_of_str "") with 0%N. lia.
  - rewrite Nat2N.inj_succ, N2Nat.id.
    destruct (decide (n = 0%N)) as [->|Hn]; [done|].
    apply N.log2_spec. lia.
Qed.

Lemma zfill_value w s : N_of_str (zfill w s) = N_of_str s.
Proof.
  unfold zfill. induction (w - String.length s)%nat as [|k IH]; [done|].
  cbn [zeros]. rewrite app_String. unfold N_of_str in *.
  cbn [N_of_str_go]. exact IH.
Qed.

(** Below one hundred the padded numeral has exactly two digits. *)
Lemma zfill2_small i :
  (i < 100)%nat → String.length (zfill 2 (str_of_N (N.of_nat i))) = 2%nat.
Proof.
  intros Hi.
  assert (forallb (λ j, Nat.eqb (String.length (zfill 2 (str_of_N (N.of_nat j)))) 2)
            (seq 0 100) = true) as Hall by (vm_compute; reflexivity).
  rewrite forallb_forall in Hall. apply Nat.eqb_eq, Hall, in_seq. lia.
Qed.

End PyStrSpec.

Module Md5Spec.
Import PyStr PyStrSpec Md5.

Lemma le_bytes_are_bytes k x : Forall is_byte (le_bytes k x).
Proof.
  revert x. induction k as [|k IH]; intros x; simpl; constructor; [|done].
  unfold is_byte. change 255 with (Z.ones 8). rewrite Z.land_ones by lia.
  apply Z.mod_pos_bound. lia.
Qed.

Lemma le_bytes_length k x : length (le_bytes k x) = k.
Proof. revert x. induction k as [|k IH]; intros x; simpl; by rewrite ?IH. Qed.

Lemma digest_bytes msg : Forall is_byte (digest msg) ∧ length (digest msg) = 16%nat.
Proof.
  unfold digest. destruct (foldl compress init _) as [[[a b] c] d].
  split.
  - repeat (apply Forall_app; split); apply le_bytes_are_bytes.
  - by rewrite !length_app, !le_bytes_length.
Qed.

Lemma hex_char_is_hex n : 0 ≤ n < 16 → is_hex (hex_char n) = true.
Proof.
  intros H.
  assert (n = 0 ∨ n = 1 ∨ n = 2 ∨ n = 3 ∨ n = 4 ∨ n = 5 ∨ n = 6 ∨ n = 7
          ∨ n = 8 ∨ n = 9 ∨ n = 10 ∨ n = 11 ∨ n = 12 ∨ n = 13 ∨ n = 14
          ∨ n = 15) as Hn by lia.
  repeat (destruct Hn as [->|Hn]; [reflexivity|]). by subst.
Qed.

Lemma hex_of_bytes_hex bs :
  Forall is_byte bs →
  forall_chars is_hex (hex_of_bytes bs) = true
  ∧ String.length (hex_of_bytes bs) = (2 * length bs)%nat.
Proof.
  induction 1 as [|b bs Hb _ [IH1 IH2]]; [done|].
  cbn [hex_of_bytes forall_chars String.length length]. unfold is_byte in Hb.
  rewrite IH1, IH2. split; [|lia].
  rewrite !hex_char_is_hex; [done| |].
  - change 15 with (Z.ones 4). rewrite Z.land_ones by lia.
    apply Z.mod_pos_bound. lia.
  - rewrite Z.shiftr_div_pow2 by lia. change (2 ^ 4) with 16. split.
    + apply Z.div_pos; lia.
    + apply Z.div_lt_upper_bound; lia.
Qed.

(** The hexadecimal digest is always thirty-two hexadecimal digits. *)
Lemma hexdigest_shape msg :
  forall_chars is_hex (hexdigest msg) = true
  ∧ String.length (hexdigest msg) = 32%nat.
Proof.
  destruct (digest_bytes msg) as [Hb Hl]. unfold hexdigest.
  destruct (hex_of_bytes_hex _ Hb) as [H1 H2]. by rewrite H2, Hl.
Qed.

Example hexdigest_empty : hexdigest (encode "") = "d41d8cd98f00b204e9800998ecf8427e".
Proof. vm_compute. reflexivity. Qed.

Example hexdigest_abc : hexdigest (encode "abc") = "900150983cd24fb0d6963f7d28e17f72".
Proof. vm_compute. reflexivity. Qed.

End Md5Spec.

Module PurePathSpec.
Import PyStr PyStrSpec PurePath.

Lemma last_elem (l : list string) d : List.last l d = d ∨ List.last l d ∈ l.
Proof.
  induction l as [|x [|y l] IH]; [by left|right; by left|].
  destruct IH as [IH|IH].
  - change (List.last (x :: y :: l) d) with (List.last (y :: l) d).
    rewrite IH. by left.
  - right. by right.
Qed.

Lemma parts_of_no_slash s x : x ∈ parts_of s → has_char "/" x = false.
Proof.
  unfold parts_of. intros Hx. apply list_elem_of_In, filter_In in Hx.
  destruct Hx as [Hx _]. apply list_elem_of_In in Hx.
  apply (split_go_no_sep "/" s "" x); [done | exact Hx].
Qed.

Lemma name_no_slash s : has_char "/" (name (of_str s)) = false.
Proof.
  unfold name. cbn [parts of_str].
  destruct (last_elem (parts_of s) "") as [->|H]; [done|].
  by eapply parts_of_no_slash.
Qed.

Lemma suffix_no_slash s : has_char "/" (suffix (of_str s)) = false.
Proof.
  unfold suffix. destruct (rfind _ _) as [i|]; [|done].
  destruct (_ && _); [|done]. apply has_char_drop, name_no_slash.
Qed.

(** Joining a directory with a single plain component appends it. *)
Lemma truediv_component dir x :
  has_char "/" x = false → x ≠ "" → x ≠ "." →
  truediv dir x = {| rooted := rooted dir; parts := parts dir ++ [x] |}.
Proof.
  intros Hslash Hne Hdot. unfold truediv, startswith.
  assert (String.prefix "/" x = false) as ->.
  { destruct x as [|a x]; [done|]. cbn [has_char] in Hslash.
    apply orb_false_iff in Hslash as [Ha _]. cbn [String.prefix].
    destruct (ascii_dec "/" a) as [<-|]; [|done].
    by rewrite Ascii.eqb_refl in Ha. }
  unfold parts_of. rewrite split_whole by done. simpl. unfold keep_part.
  apply String.eqb_neq in Hne, Hdot. by rewrite Hne, Hdot.
Qed.

Lemma parent_app dir x :
  parent {| rooted := rooted dir; parts := parts dir ++ [x] |} = dir.
Proof. unfold parent. simpl. rewrite removelast_last. by destruct dir. Qed.

Lemma name_app dir x :
  name {| rooted := rooted dir; parts := parts dir ++ [x] |} = x.
Proof. unfold name. simpl. apply last_last. Qed.

End PurePathSpec.

Module TranscriptionSpec.
Import Messages Transcription Logging.

Section FanOut.
Variable transcribe_audio : nat → AudioAttachment → gathered.

Lemma collect_fold (results : list gathered) acc :
  (foldl collect acc results).1 = acc.1 ++ map outcome_of results.
Proof.
  revert acc. induction results as [|g results IH]; intros acc; simpl.
  - by rewrite app_nil_r.
  - rewrite IH. destruct g as [e|[r|]]; simpl; by rewrite <- app_assoc.
Qed.

Lemma finish_length tasks slots i :
  length (finish transcribe_audio tasks slots i) = length slots.
Proof. unfold finish. destruct (tasks !! i); by rewrite ?length_insert. Qed.

Lemma foldl_finish_length tasks completion slots :
  length (foldl (finish transcribe_audio tasks) slots completion)
  = length slots.
Proof.
  revert slots. induction completion as [|i c IH]; intros slots; simpl;
    [done|]. by rewrite IH, finish_length.
Qed.


End FanOut.


Section Logged.
Variable level : Z.
Variable transcribe_audio : nat → AudioAttachment → gathered.




End Logged.



End TranscriptionSpec.

Module EmailProcessorSpec.
Import PyStr PyStrSpec PyFloat Messages EmailProcessor.

Lemma successful_elem (r : TranscriptionResult) results :
  Some r ∈ results ↔ r ∈ successful results.
Proof.
  unfold successful. rewrite list_elem_of_omap. split.
  - intros H. by exists (Some r).
  - by intros ([r'|] & H & [= ->]).
Qed.

(** The lines of a successful result are lines of the body. *)
Lemma result_lines_in_body (m : VoicemailMessage) results r :
  r ∈ successful results →
  ∃ i, ∀ line,
    line ∈ result_lines (length (successful results)) i r →
    line ∈ body_lines m results.
Proof.
  intros Hr. destruct (proj1 (list_elem_of_lookup _ _) Hr) as [i Hi].
  exists i. intros line Hline. unfold body_lines.
  destruct (successful results) as [|r0 succ] eqn:Hs;
    [by apply elem_of_nil in Hr|].
  apply elem_of_app. left. apply elem_of_app. right.
  apply elem_of_app. left.
  apply list_elem_of_In, in_concat.
  exists (result_lines (length (r0 :: succ)) i r). split.
  - apply list_elem_of_In, list_elem_of_lookup. exists i.
    by rewrite list_lookup_imap, Hi.
  - by apply list_elem_of_In.
Qed.

Lemma transcript_line (total i : nat) r :
  ("Transcript: " +:+ transcript r) ∈ result_lines total i r.
Proof.
  unfold result_lines. apply elem_of_app. right.
  apply elem_of_app. left. apply elem_of_cons. by left.
Qed.

Lemma confidence_line (total i : nat) r :
  ("Confidence: " +:+ format_percent 2 (confidence r))
    ∈ result_lines total i r.
Proof.
  unfold result_lines. apply elem_of_app. right.
  apply elem_of_app. left. apply elem_of_cons. right.
  apply elem_of_cons. by left.
Qed.

Lemma transcript_in_body (m : VoicemailMessage) results r :
  Some r ∈ results →
  contains (transcript r) (_create_plain_text_body m results) = true.
Proof.
  intros Hr%successful_elem. apply contains_occurs.
  destruct (result_lines_in_body m results r Hr) as [i Hi].
  eapply occurs_in_trans; [|apply occurs_in_join, Hi, transcript_line].
  apply occurs_in_app_l, occurs_in_refl.
Qed.

Lemma confidence_in_body (m : VoicemailMessage) results r :
  Some r ∈ results →
  contains (format_percent 2 (confidence r))
    (_create_plain_text_body m results) = true.
Proof.
  intros Hr%successful_elem. apply contains_occurs.
  destruct (result_lines_in_body m results r Hr) as [i Hi].
  eapply occurs_in_trans; [|apply occurs_in_join, Hi, confidence_line].
  apply occurs_in_app_l, occurs_in_refl.
Qed.

Lemma enhance_subject_transcribed subject results r :
  Some r ∈ results →
  _enhance_subject subject results
  = if startswith subject "[Transcribed]" then subject
    else "[Transcribed] " +:+ subject.
Proof.
  intros Hr%successful_elem. unfold _enhance_subject.
  destruct (successful results); [by apply elem_of_nil in Hr|].
  by destruct (startswith subject "[Transcribed]").
Qed.

(** The float literal [0.95] is the double nearest to 95/100: the exact
    value [m * 2^-53] lies within half a unit in the last place. *)
Example f0_95_nearest :
  f0_95 = S754_finite false 8556839292003942 (-53)
  ∧ Z.abs (100 * 8556839292003942 - 95 * 2 ^ 53) * 2 ≤ 100.
Proof. split; [reflexivity | vm_compute; discriminate]. Qed.

Example format_percent_0_95 : format_percent 2 f0_95 = "95.00%".
Proof. vm_compute. reflexivity. Qed.

(** C2. A message without audio, subject ["Hello"], goes through the
    pipeline to the success result with no transcription, the storage
    untouched and the body carrying only the original text; yet the
    subject handed to dispatch is ["[Audio] Hello"], not ["Hello"]. *)
Theorem no_audio_subject_gets_audio_marker :
  let '(result, st) :=
    EmailTasks._process_voicemail_async (Samples.env_with true)
      Samples.hello_message Samples.empty_storage in
  success result = true
  ∧ transcriptions_count result = 0%nat
  ∧ st = Samples.empty_storage
  ∧ has_audio_attachments Samples.hello_message = false
  ∧ e_plain (_create_enhanced_email Samples.hello_message [])
    = "=== ORIGINAL MESSAGE ===" +:+ nl +:+ nl +:+ "hi"
  ∧ e_subject (_create_enhanced_email Samples.hello_message [])
    = "[Audio] Hello".
Proof. vm_compute. repeat split; reflexivity. Qed.

(** C6. With at least one successful outcome, the enhanced subject starts
    with the transcription marker; enhancing the enhanced subject again
    (same outcomes) returns it unchanged, so the marker is prefixed exactly
    once; and the transcript of every successful outcome occurs verbatim
    in the enhanced plain-text body. *)
Theorem enhance_prefix_idempotent
    (m : VoicemailMessage) (results : list (option TranscriptionResult))
    (r : TranscriptionResult) :
  Some r ∈ results →
  let once := _enhance_subject (subject m) results in
  startswith once "[Transcribed]" = true
  ∧ once = (if startswith (subject m) "[Transcribed]" then subject m
            else "[Transcribed] " +:+ subject m)
  ∧ _enhance_subject once results = once
  ∧ contains (transcript r) (_create_plain_text_body m results) = true.
Proof.
  intros Hr once.
  assert (startswith once "[Transcribed]" = true) as Hstart.
  { subst once. rewrite (enhance_subject_transcribed _ _ r Hr).
    destruct (startswith (subject m) "[Transcribed]") eqn:E; [done|].
    change "[Transcribed] " with ("[Transcribed]" +:+ " ").
    rewrite app_assoc. apply startswith_app. }
  split; [done|]. split; [by apply enhance_subject_transcribed with r|].
  split; [|by apply transcript_in_body].
  by rewrite (enhance_subject_transcribed _ _ r Hr), Hstart.
Qed.

Lemma enhance_prefix_idempotent_witness :
  Some Samples.call_me_back ∈ [Some Samples.call_me_back]
  ∧ _enhance_subject
      (_enhance_subject (subject Samples.voicemail_message)
         [Some Samples.call_me_back])
      [Some Samples.call_me_back]
    = "[Transcribed] Voicemail from John Doe"
  ∧ contains "call me back"
      (_create_plain_text_body Samples.voicemail_message
         [Some Samples.call_me_back]) = true.
Proof.
  assert (Some Samples.call_me_back ∈ [Some Samples.call_me_back]) as Hin
    by apply list_elem_of_here.
  destruct (enhance_prefix_idempotent Samples.voicemail_message
              [Some Samples.call_me_back] Samples.call_me_back Hin)
    as (_ & _ & Hidem & Hbody).
  split; [exact Hin|]. split; [exact Hidem | exact Hbody].
Defined.

(** C8 fails as stated: for the sample message with one WAV payload
    transcribed as ["call me back"] with confidence 0.95, the enhanced
    body does not contain ["95%"]; the confidence is printed with two
    decimals. *)
Lemma scenario_b_body_lacks_95_percent :
  contains "95%"
    (_create_plain_text_body Samples.voicemail_message
       [Some Samples.call_me_back]) = false
  ∧ contains "Confidence: 95.00%"
      (_create_plain_text_body Samples.voicemail_message
         [Some Samples.call_me_back]) = true.
Proof. vm_compute. split; reflexivity. Qed.

(** C8, amended. For a message whose single outcome is a transcription
    ["call me back"] with confidence 0.95, the enhanced subject is
    ["[Transcribed] "] followed by the original subject (the original
    subject itself when it already starts with ["[Transcribed]"]), and the
    enhanced plain-text body contains ["call me back"] and ["95.00%"]. *)
Theorem scenario_b_enhanced
    (m : VoicemailMessage) (r : TranscriptionResult) :
  transcript r = "call me back" →
  confidence r = f0_95 →
  e_subject (_create_enhanced_email m [Some r])
  = (if startswith (subject m) "[Transcribed]" then subject m
     else "[Transcribed] " +:+ subject m)
  ∧ contains "call me back" (e_plain (_create_enhanced_email m [Some r])) = true
  ∧ contains "95.00%" (e_plain (_create_enhanced_email m [Some r])) = true.
Proof.
  intros Ht Hc.
  assert (Some r ∈ [Some r]) as Hin by apply list_elem_of_here.
  split; [by apply enhance_subject_transcribed with r|]. split.
  - rewrite <- Ht. by apply transcript_in_body.
  - rewrite <- format_percent_0_95, <- Hc. by apply confidence_in_body.
Qed.

Lemma scenario_b_enhanced_witness :
  transcript Samples.call_me_back = "call me back"
  ∧ confidence Samples.call_me_back = f0_95
  ∧ e_subject (_create_enhanced_email Samples.voicemail_message
                 [Some Samples.call_me_back])
    = "[Transcribed] Voicemail from John Doe"
  ∧ contains "95.00%"
      (e_plain (_create_enhanced_email Samples.voicemail_message
                  [Some Samples.call_me_back])) = true.
Proof.
  destruct (scenario_b_enhanced Samples.voicemail_message
              Samples.call_me_back eq_refl eq_refl) as (Hs & _ & Hp).
  split; [reflexivity|]. split; [reflexivity|].
  split; [exact Hs | exact Hp].
Defined.

End EmailProcessorSpec.

Module FileManagerSpec.
Import PyStr PyStrSpec Md5 PurePath Messages FileManager.

(** *** The storage tree *)

Lemma lookup_place_eq k o (m : gmap string node) : place k o m !! k = o.
Proof. destruct o; simpl; [apply lookup_insert_eq | apply lookup_delete_eq]. Qed.

Lemma lookup_place_ne k k' o (m : gmap string node) :
  k ≠ k' → place k o m !! k' = m !! k'.
Proof.
  intros. destruct o; simpl; [by apply lookup_insert_ne | by apply lookup_delete_ne].
Qed.

Lemma area_of_put_eq a k o st : area_of a (put a k o st) = place k o (area_of a st).
Proof. by destruct a. Qed.

Lemma area_of_put_ne a a' k o st :
  a ≠ a' → area_of a' (put a k o st) = area_of a' st.
Proof. by destruct a, a'. Qed.

Lemma lookup_put_ne a a' k k' o st :
  k ≠ k' → area_of a' (put a k o st) !! k' = area_of a' st !! k'.
Proof. intros. destruct a, a'; simpl; by rewrite ?lookup_place_ne. Qed.

(** What a cleanup run does, by cases on how its storage calls end. *)
Lemma cleanup_no_work io cid success st :
  temp st !! cid = None →
  _cleanup_correlation_files io cid success st = (true, st, false).
Proof. intros H. unfold _cleanup_correlation_files. by rewrite H. Qed.

Lemma cleanup_relocated io cid success st work :
  temp st !! cid = Some work →
  relocates io cid success st = true →
  _cleanup_correlation_files io cid success st
  = (true,
     put Temp cid None
       (put (if success then Processed else Failed) cid (Some work) st),
     true).
Proof.
  intros Hw Hr. unfold _cleanup_correlation_files, relocates in *.
  rewrite Hw. apply andb_true_iff in Hr as [Hrm Hmv].
  destruct (mv io); [|done].
  set (target := if success then Processed else Failed) in *.
  destruct (area_of target st !! cid) as [t|] eqn:Ht.
  - destruct (rmtree (rm_target io) (Some t)) as [raised residue] eqn:E.
    simpl in Hrm. destruct raised; [done|]. do 2 f_equal.
    destruct target, st; simpl in *; f_equal;
      destruct residue; simpl;
      by rewrite ?insert_insert_eq, ?insert_delete_eq.
  - do 2 f_equal. destruct target, st; simpl in *; f_equal;
      by rewrite insert_delete_eq.
Qed.

Lemma place_place k o o' (m : gmap string node) :
  place k o (place k o' m) = place k o m.
Proof.
  apply map_eq. intros i. destruct (decide (k = i)) as [->|Hne].
  - by rewrite !lookup_place_eq.
  - by rewrite !lookup_place_ne.
Qed.

Lemma put_put a k o o' st : put a k o (put a k o' st) = put a k o st.
Proof. destruct a; simpl; by rewrite place_place. Qed.

Lemma rmtree_done o n residue : rmtree o n = (false, residue) → residue = None.
Proof. destruct n as [[c|mt es]|], o; simpl; congruence. Qed.

Lemma target_not_temp (success : bool) :
  (if success then Processed else Failed) ≠ Temp.
Proof. by destruct success. Qed.

(** Every run that finds the work directory ends in a storage that
    differs from the initial one at most in the id's entry of the working
    area and its entry of the target area. *)
Lemma cleanup_cases io cid success st work :
  temp st !! cid = Some work →
  ∃ ok temp' target' spawned,
    _cleanup_correlation_files io cid success st
    = (ok,
       put Temp cid temp'
         (put (if success then Processed else Failed) cid target' st),
       spawned)
    ∧ (ok = true → temp' = None)
    ∧ (relocates io cid success st = true →
         ok = true ∧ temp' = None ∧ target' = Some work).
Proof.
  intros Hw.
  destruct (relocates io cid success st) eqn:Hr.
  { exists true, None, (Some work), true.
    by rewrite (cleanup_relocated _ _ _ _ work). }
  pose proof (target_not_temp success) as Hnt.
  unfold _cleanup_correlation_files, relocates in *. rewrite Hw.
  set (target := if success then Processed else Failed) in *.
  assert (∀ X target',
    ∃ ok temp' spawned,
      fallback_delete io cid (put Temp cid X (put target cid target' st))
      = (ok, put Temp cid temp' (put target cid target' st), spawned)
      ∧ (ok = true → temp' = None)) as Hfb.
  { intros X target'. unfold fallback_delete.
    destruct (rmtree _ _) as [raised residue] eqn:E.
    exists (negb raised), residue, false. rewrite put_put. split; [done|].
    destruct raised; [done|]. intros _. by eapply rmtree_done. }
  assert (∀ target',
    ∃ ok temp' spawned,
      fallback_delete io cid (put target cid target' st)
      = (ok, put Temp cid temp' (put target cid target' st), spawned)
      ∧ (ok = true → temp' = None)) as Hfb0.
  { intros target'. unfold fallback_delete.
    destruct (rmtree _ _) as [raised residue] eqn:E.
    exists (negb raised), residue, false. split; [done|].
    destruct raised; [done|]. intros _. by eapply rmtree_done. }
  destruct (area_of target st !! cid) as [t|] eqn:Ht.
  - destruct (rmtree (rm_target io) (Some t)) as [raised residue] eqn:E.
    simpl in Hr. destruct raised.
    + destruct (Hfb0 residue) as (ok & temp' & sp & -> & Hok).
      exists ok, temp', residue, sp. by repeat split.
    + destruct (mv io) as [|src_left dst_left]; [done|].
      rewrite put_put.
      destruct (Hfb src_left dst_left) as (ok & temp' & sp & -> & Hok).
      exists ok, temp', dst_left, sp. by repeat split.
  - destruct (mv io) as [|src_left dst_left]; [done|].
    rewrite put_put.
    destruct (Hfb src_left dst_left) as (ok & temp' & sp & -> & Hok).
    exists ok, temp', dst_left, sp. by repeat split.
Qed.

Lemma occupancy_after cid (success : bool) temp' target' st :
  area_of (if success then Failed else Processed) st !! cid = None →
  temp' = None →
  (occupancy cid
     (put Temp cid temp'
        (put (if success then Processed else Failed) cid target' st)) ≤ 1)%nat.
Proof.
  intros Hother ->. unfold occupancy, present.
  destruct success; simpl in *; rewrite Hother, lookup_delete_eq;
    destruct (place cid target' _ !! cid); simpl; lia.
Qed.

(** C10. When the work directory of the id does not exist, the cleanup
    returns [True], leaves the three areas as they are and spawns no
    sweep, whatever the success flag and whatever the storage calls
    would do. *)
Theorem cleanup_without_work_dir_is_noop
    (io : cleanup_io) (cid : string) (success : bool) (st : storage) :
  temp st !! cid = None →
  cleanup_correlation_files io cid success st = (true, st, false).
Proof. apply cleanup_no_work. Qed.

Lemma cleanup_without_work_dir_is_noop_witness :
  temp Samples.empty_storage !! "req_0123456789ab" = None
  ∧ cleanup_correlation_files Samples.stuck_io "req_0123456789ab" false
      Samples.empty_storage
    = (true, Samples.empty_storage, false).
Proof.
  split; [reflexivity|].
  apply (cleanup_without_work_dir_is_noop Samples.stuck_io
           "req_0123456789ab" false Samples.empty_storage).
  reflexivity.
Defined.

(** C3 fails as stated.  Starting from an empty storage, the sample
    message is processed twice under the same correlation id: dispatch
    fails the first time and succeeds on the retry.  After the second
    cleanup has returned [True], the id is present in the processed area
    and in the failed area.  And when the move and the fallback delete
    both raise, the cleanup returns [False] with the work directory still
    in place. *)
Lemma retry_after_failure_occupies_two_areas :
  (let '(r1, st1) :=
     EmailTasks._process_voicemail_async (Samples.env_with false)
       Samples.voicemail_message Samples.empty_storage in
   let '(r2, st2) :=
     EmailTasks._process_voicemail_async (Samples.env_with true)
       Samples.voicemail_message st1 in
   success r1 = false ∧ success r2 = true ∧ files_cleaned r2 = true
   ∧ present Processed "req_0123456789ab" st2 = true
   ∧ present Failed "req_0123456789ab" st2 = true
   ∧ occupancy "req_0123456789ab" st2 = 2%nat)
  ∧ (let '(ok, st', _) :=
       cleanup_correlation_files Samples.stuck_io "req_0123456789ab" true
         Samples.retried_storage in
     ok = false ∧ present Temp "req_0123456789ab" st' = true).
Proof. vm_compute. repeat split; reflexivity. Qed.

(** The run in which removing the old target raises: the fallback delete
    is applied to the work directory, which is still in place. *)
Lemma cleanup_target_raises io cid (success : bool) st work t :
  temp st !! cid = Some work →
  area_of (if success then Processed else Failed) st !! cid = Some t →
  (rmtree (rm_target io) (Some t)).1 = true →
  _cleanup_correlation_files io cid success st
  = (negb (rmtree (rm_work io) (Some work)).1,
     put Temp cid (rmtree (rm_work io) (Some work)).2
       (put (if success then Processed else Failed) cid
          (rmtree (rm_target io) (Some t)).2 st),
     false).
Proof.
  intros Hw Ht Hraised. pose proof (target_not_temp success) as Hnt.
  unfold _cleanup_correlation_files. rewrite Hw, Ht.
  destruct (rmtree (rm_target io) (Some t)) as [raised residue].
  simpl in Hraised. subst raised. cbn [fst snd]. unfold fallback_delete.
  assert (temp (put (if success then Processed else Failed) cid residue st)
            !! cid = Some work) as ->.
  { rewrite <- Hw. by destruct success. }
  by destruct (rmtree (rm_work io) (Some work)).
Qed.

(** The run in which the move raises: the fallback delete is applied to
    what the move left of the work directory. *)
Lemma cleanup_move_raises io cid (success : bool) st work src_left dst_left :
  temp st !! cid = Some work →
  (∀ t, area_of (if success then Processed else Failed) st !! cid = Some t →
        (rmtree (rm_target io) (Some t)).1 = false) →
  mv io = MvRaises src_left dst_left →
  _cleanup_correlation_files io cid success st
  = (negb (rmtree (rm_work io) src_left).1,
     put Temp cid (rmtree (rm_work io) src_left).2
       (put (if success then Processed else Failed) cid dst_left st),
     false).
Proof.
  intros Hw Hrm Hmv. pose proof (target_not_temp success) as Hnt.
  unfold _cleanup_correlation_files. rewrite Hw, Hmv.
  set (target := if success then Processed else Failed) in *.
  assert (∀ target_left,
    fallback_delete io cid
      (put Temp cid src_left
         (put target cid dst_left (put target cid target_left st)))
    = (negb (rmtree (rm_work io) src_left).1,
       put Temp cid (rmtree (rm_work io) src_left).2
         (put target cid dst_left st), false)) as Hfb.
  { intros target_left. unfold fallback_delete.
    rewrite (area_of_put_eq Temp), lookup_place_eq, !put_put.
    destruct (rmtree (rm_work io) src_left) as [raised residue].
    cbn [fst snd]. by rewrite put_put. }
  destruct (area_of target st !! cid) as [t|] eqn:Ht.
  - specialize (Hrm t eq_refl).
    destruct (rmtree (rm_target io) (Some t)) as [raised residue].
    simpl in Hrm. subst raised. apply Hfb.
  - apply Hfb.
Qed.

(** C3, amended. A cleanup run that finds the work directory changes
    nothing but that id's entries in the working area and in the target
    area (processed on success, failed otherwise); the other terminal area
    is left as it is.  When the relocation goes through, the work
    directory becomes the target entry, in place of whatever was there.
    When it does not (removing the old target raises, or the move
    raises), the run calls the delete on the work directory as the failed
    step left it: it returns [True] exactly when that delete does not
    raise, the working area then holds what the delete left, nothing
    when it went through, and the target entry is what the failed step
    left.  Whenever the run returns [True] the id is gone from the working
    area, and if it was not in the other terminal area before, it is then
    in at most one area. *)
Theorem cleanup_moves_or_deletes
    (io : cleanup_io) (cid : string) (success : bool) (st : storage)
    (work : node) :
  temp st !! cid = Some work →
  let target := if success then Processed else Failed in
  let other := if success then Failed else Processed in
  let '(ok, st', _) := cleanup_correlation_files io cid success st in
  (∀ a k, k ≠ cid → area_of a st' !! k = area_of a st !! k)
  ∧ area_of other st' = area_of other st
  ∧ (relocates io cid success st = true →
       ok = true ∧ area_of target st' !! cid = Some work)
  ∧ (ok = true → temp st' !! cid = None)
  ∧ (ok = true → area_of other st !! cid = None →
       (occupancy cid st' ≤ 1)%nat)
  ∧ (∀ t, area_of target st !! cid = Some t →
          (rmtree (rm_target io) (Some t)).1 = true →
          ok = negb (rmtree (rm_work io) (Some work)).1
          ∧ temp st' !! cid = (rmtree (rm_work io) (Some work)).2
          ∧ area_of target st' !! cid = (rmtree (rm_target io) (Some t)).2
          ∧ (rm_work io = RmDone →
             (∃ mtime entries, work = Dir mtime entries) →
             ok = true ∧ temp st' !! cid = None))
  ∧ (∀ src_left dst_left,
       (∀ t, area_of target st !! cid = Some t →
             (rmtree (rm_target io) (Some t)).1 = false) →
       mv io = MvRaises src_left dst_left →
       ok = negb (rmtree (rm_work io) src_left).1
       ∧ temp st' !! cid = (rmtree (rm_work io) src_left).2
       ∧ area_of target st' !! cid = dst_left
       ∧ (rm_work io = RmDone →
          (∃ mtime entries, src_left = Some (Dir mtime entries)) →
          ok = true ∧ temp st' !! cid = None)).
Proof.
  intros Hw target other. unfold cleanup_correlation_files.
  pose proof (target_not_temp success) as Hnt. fold target in Hnt.
  assert (∀ X Y, temp (put Temp cid X (put target cid Y st)) !! cid = X)
    as Htemp.
  { intros X Y.
    change (area_of Temp (put Temp cid X (put target cid Y st)) !! cid = X).
    by rewrite area_of_put_eq, lookup_place_eq. }
  assert (∀ X Y, area_of target (put Temp cid X (put target cid Y st)) !! cid
                 = Y) as Htarget.
  { intros X Y. rewrite area_of_put_ne by done.
    by rewrite area_of_put_eq, lookup_place_eq. }
  assert (∀ t, area_of target st !! cid = Some t →
               (rmtree (rm_target io) (Some t)).1 = true →
               let '(ok, st', _) :=
                 _cleanup_correlation_files io cid success st in
               ok = negb (rmtree (rm_work io) (Some work)).1
               ∧ temp st' !! cid = (rmtree (rm_work io) (Some work)).2
               ∧ area_of target st' !! cid
                 = (rmtree (rm_target io) (Some t)).2) as Hfirst.
  { intros t Ht Hraised.
    rewrite (cleanup_target_raises io cid success st work t Hw Ht Hraised).
    cbv beta iota. fold target. by rewrite Htemp, Htarget. }
  assert (∀ src_left dst_left,
            (∀ t, area_of target st !! cid = Some t →
                  (rmtree (rm_target io) (Some t)).1 = false) →
            mv io = MvRaises src_left dst_left →
            let '(ok, st', _) :=
              _cleanup_correlation_files io cid success st in
            ok = negb (rmtree (rm_work io) src_left).1
            ∧ temp st' !! cid = (rmtree (rm_work io) src_left).2
            ∧ area_of target st' !! cid = dst_left) as Hsecond.
  { intros src_left dst_left Hrm Hmv.
    rewrite (cleanup_move_raises io cid success st work src_left dst_left
               Hw Hrm Hmv).
    cbv beta iota. fold target. by rewrite Htemp, Htarget. }
  destruct (cleanup_cases io cid success st work Hw)
    as (ok & temp' & target' & sp & Hrun & Hok & Hrel).
  rewrite Hrun in Hfirst, Hsecond. cbv beta iota in Hfirst, Hsecond.
  rewrite Hrun. fold target. split; [|split; [|split; [|split; [|split; [|split]]]]].
  - intros a k Hk. by rewrite !lookup_put_ne.
  - subst target other. by destruct success.
  - intros Hr. destruct (Hrel Hr) as (-> & -> & ->). split; [done|].
    rewrite area_of_put_ne by (symmetry; apply target_not_temp).
    by rewrite area_of_put_eq, lookup_place_eq.
  - intros ->. rewrite (Hok eq_refl). simpl. apply lookup_delete_eq.
  - intros -> Hother. by apply occupancy_after; [|apply Hok].
  - intros t Ht Hraised.
    destruct (Hfirst t Ht Hraised) as (Hk & Ht' & Htg).
    split; [exact Hk|]. split; [exact Ht'|]. split; [exact Htg|].
    intros Hdone (mtime & entries & ->).
    rewrite Hdone in Hk, Ht'. split; [exact Hk | exact Ht'].
  - intros src_left dst_left Hrm Hmv.
    destruct (Hsecond _ _ Hrm Hmv) as (Hk & Ht' & Htg).
    split; [exact Hk|]. split; [exact Ht'|]. split; [exact Htg|].
    intros Hdone (mtime & entries & ->).
    rewrite Hdone in Hk, Ht'. split; [exact Hk | exact Ht'].
Qed.

Lemma cleanup_moves_or_deletes_witness :
  temp Samples.retried_storage !! "req_0123456789ab"
  = Some (Dir 2000 Samples.two_files)
  ∧ (let '(ok, st', _) :=
       cleanup_correlation_files no_faults "req_0123456789ab" false
         Samples.retried_storage in
     ok = true
     ∧ failed st' !! "req_0123456789ab" = Some (Dir 2000 Samples.two_files)
     ∧ temp st' !! "req_0123456789ab" = None).
Proof.
  split; [reflexivity|].
  pose proof (cleanup_moves_or_deletes no_faults "req_0123456789ab" false
                Samples.retried_storage (Dir 2000 Samples.two_files)
                eq_refl) as H.
  cbv zeta in H.
  destruct (cleanup_correlation_files no_faults "req_0123456789ab" false
              Samples.retried_storage) as [[ok st'] sp].
  destruct H as (_ & _ & Hrel & Hok & _).
  destruct (Hrel eq_refl) as [-> Ht].
  split; [reflexivity|]. split; [exact Ht | exact (Hok eq_refl)].
Defined.

(** C4 fails as stated.  With the id in the working area and, from an
    earlier failed attempt, in the failed area, two cleanups in a row with
    [success=True] both return [True] and leave the work directory in the
    processed area, but the entry in the failed area is still there. *)
Lemma finalize_twice_keeps_failed_entry :
  let '(ok1, st1, _) :=
    cleanup_correlation_files no_faults "req_0123456789ab" true
      Samples.retried_storage in
  let '(ok2, st2, _) :=
    cleanup_correlation_files no_faults "req_0123456789ab" true st1 in
  ok1 = true ∧ ok2 = true
  ∧ processed st2 !! "req_0123456789ab" = Some (Dir 2000 Samples.two_files)
  ∧ temp st2 !! "req_0123456789ab" = None
  ∧ failed st2 !! "req_0123456789ab" = Some (Dir 1000 ∅).
Proof. vm_compute. repeat split; reflexivity. Qed.

(** C4, amended. For an id with a work directory, when the relocation of
    the first call goes through, two cleanups in a row with
    [success=True] both return [True]; the second changes nothing; the
    work directory is afterwards the id's entry in the processed area and
    the id is gone from the working area; the failed area is as it was
    before the two calls. *)
Theorem finalize_twice_idempotent
    (io1 io2 : cleanup_io) (cid : string) (st : storage) (work : node) :
  temp st !! cid = Some work →
  relocates io1 cid true st = true →
  let '(ok1, st1, _) := cleanup_correlation_files io1 cid true st in
  let '(ok2, st2, _) := cleanup_correlation_files io2 cid true st1 in
  ok1 = true ∧ ok2 = true
  ∧ st2 = st1
  ∧ processed st2 !! cid = Some work
  ∧ temp st2 !! cid = None
  ∧ failed st2 = failed st.
Proof.
  intros Hw Hr. unfold cleanup_correlation_files.
  rewrite (cleanup_relocated io1 cid true st work Hw Hr).
  set (st1 := put Temp cid None (put Processed cid (Some work) st)).
  assert (temp st1 !! cid = None) as Hgone by apply lookup_delete_eq.
  rewrite (cleanup_no_work io2 cid true st1 Hgone).
  repeat split; [|done]. apply lookup_insert_eq.
Qed.

Lemma finalize_twice_idempotent_witness :
  temp Samples.retried_storage !! "req_0123456789ab"
  = Some (Dir 2000 Samples.two_files)
  ∧ relocates no_faults "req_0123456789ab" true Samples.retried_storage = true
  ∧ (let '(ok1, st1, _) :=
       cleanup_correlation_files no_faults "req_0123456789ab" true
         Samples.retried_storage in
     let '(ok2, st2, _) :=
       cleanup_correlation_files Samples.stuck_io "req_0123456789ab" true st1 in
     ok1 = true ∧ ok2 = true
     ∧ st2 = st1
     ∧ processed st2 !! "req_0123456789ab" = Some (Dir 2000 Samples.two_files)
     ∧ temp st2 !! "req_0123456789ab" = None
     ∧ failed st2 = failed Samples.retried_storage).
Proof.
  split; [reflexivity|]. split; [reflexivity|].
  apply (finalize_twice_idempotent no_faults Samples.stuck_io
           "req_0123456789ab" Samples.retried_storage
           (Dir 2000 Samples.two_files)); reflexivity.
Defined.

(** *** The sweep *)

Section Sweep.
Variable rm : string → rm_outcome.
Variables off cut : Z.

Lemma sweep_loop_cons item rest (m : gmap string node) :
  sweep_loop rm off cut (item :: rest) m
  = match m !! item with
    | Some (Dir mtime entries) =>
        if fromtimestamp off mtime <? cut then
          let '(raised, residue) := rmtree (rm item) (Some (Dir mtime entries)) in
          if raised then place item residue m
          else sweep_loop rm off cut rest (place item residue m)
        else sweep_loop rm off cut rest m
    | _ => sweep_loop rm off cut rest m
    end.
Proof. reflexivity. Qed.



End Sweep.




(** *** Persisting *)

Section Store.
Variable storage_path : pure_path.
Variable io : store_io.
Variable cid : string.



End Store.


(** *** The stored name *)

Lemma safe_filename_first original index :
  ∃ rest, _generate_safe_filename original index = String "a" rest.
Proof. by eexists. Qed.

Lemma safe_filename_no_slash original index :
  has_char "/" (_generate_safe_filename original index) = false.
Proof.
  unfold _generate_safe_filename. rewrite !has_char_app.
  rewrite has_char_lower_slash, PurePathSpec.suffix_no_slash.
  rewrite (forall_chars_lacks is_digit "/" (zfill 2 _)) by
    (done || apply zfill_digits, str_of_N_digits).
  rewrite (forall_chars_lacks is_hex "/" (take_str 8 _)) by
    (done || apply forall_chars_take, Md5Spec.hexdigest_shape).
  done.
Qed.

(** C9 fails as stated: at index 100 the index field of the stored name
    has three digits, so the name is not of the two-digit shape. *)
Lemma safe_filename_index_100 :
  _generate_safe_filename "a.wav" 100 = "audio_100_bc1f9e72.wav"
  ∧ ¬ two_digit_shape (_generate_safe_filename "a.wav" 100) "a.wav".
Proof.
  split; [vm_compute; reflexivity|].
  intros (d1 & d2 & h & _ & _ & _ & _ & Heq).
  vm_compute in Heq. congruence.
Qed.

(** C9, amended. The stored name is a function of the original name and
    the index alone.  It reads [audio_], the index in decimal padded with
    zeros to at least two digits (exactly two below one hundred), an
    underscore, eight hexadecimal digits, and the lower-cased suffix of
    the original name.  It contains no slash and is neither [.] nor [..],
    so joining it to any directory appends exactly one component: the
    parent of the stored path is that directory.  The path
    [_store_audio_file] returns is the work directory joined with this
    name, whatever the payload bytes. *)
Theorem safe_filename_shape (original : string) (index : nat) :
  let stored := _generate_safe_filename original index in
  (∃ idx h,
     stored = "audio_" +:+ idx +:+ "_" +:+ h
                       +:+ lower (suffix (of_str original))
     ∧ idx = zfill 2 (str_of_N (N.of_nat index))
     ∧ forall_chars is_digit idx = true
     ∧ N_of_str idx = N.of_nat index
     ∧ (2 ≤ String.length idx)%nat
     ∧ ((index < 100)%nat → String.length idx = 2%nat)
     ∧ String.length h = 8%nat
     ∧ forall_chars is_hex h = true)
  ∧ has_char "/" stored = false
  ∧ stored ≠ "." ∧ stored ≠ ".."
  ∧ (∀ dir, parent (truediv dir stored) = dir
            ∧ name (truediv dir stored) = stored)
  ∧ (∀ storage_path io cid a st p st',
       filename a = original →
       _store_audio_file storage_path io cid a index st = (Some p, st') →
       p = truediv (work_dir_of storage_path cid) stored).
Proof.
  intros stored.
  destruct (safe_filename_first original index) as [rest Hfirst].
  fold stored in Hfirst.
  pose proof (safe_filename_no_slash original index) as Hslash.
  fold stored in Hslash.
  split; [|split; [done|split; [|split; [|split]]]].
  - exists (zfill 2 (str_of_N (N.of_nat index))),
           (take_str 8 (hexdigest (encode original))).
    destruct (Md5Spec.hexdigest_shape (encode original)) as [Hhex Hlen].
    split; [done|]. split; [done|].
    split; [apply zfill_digits, str_of_N_digits|].
    split; [by rewrite zfill_value, str_of_N_value|].
    split; [rewrite zfill_length; lia|].
    split; [apply zfill2_small|].
    split; [by rewrite take_str_length, Hlen | by apply forall_chars_take].
  - by rewrite Hfirst.
  - by rewrite Hfirst.
  - intros dir. rewrite PurePathSpec.truediv_component;
      [|done|by rewrite Hfirst..].
    split; [apply PurePathSpec.parent_app | apply PurePathSpec.name_app].
  - intros storage_path io cid a st p st' Hname. unfold _store_audio_file.
    rewrite Hname. fold stored.
    destruct (temp st !! cid) as [[c|mtime entries]|]; [done| |done].
    destruct (write io index a); [case_bool_decide|]; congruence.
Qed.

End FileManagerSpec.

Module EmailTasksSpec.
Import PyStr PurePath Messages Transcription EmailProcessor FileManager
       FileManagerSpec EmailTasks.



End EmailTasksSpec.

Module SpeechCallSpec.
Import PyStr PyStrSpec PyFloat Messages Transcription SpeechCall.

Lemma occurs_amr_wb s : occurs_in "amr-wb" s → occurs_in "amr" s.
Proof.
  intros (pre & post & ->). by exists pre, ("-wb" +:+ post).
Qed.

Lemma contains_amr_wb s : contains "amr" s = false → contains "amr-wb" s = false.
Proof.
  intros H. destruct (contains "amr-wb" s) eqn:E; [|done].
  apply contains_occurs, occurs_amr_wb, contains_occurs in E. congruence.
Qed.

(** X1. Whatever the content type, the encoding chosen is LINEAR16, FLAC,
    OGG_OPUS or AMR: the branch for [amr-wb] is never taken, because every
    content type that contains [amr-wb] contains [amr], which is tested
    first; and MP3 content is mapped to LINEAR16. *)
Theorem audio_encoding_range (content_type : string) :
  _get_audio_encoding content_type ≠ AMR_WB
  ∧ _get_audio_encoding content_type ≠ MP3
  ∧ (contains "wav" (lower content_type) = false →
     contains "flac" (lower content_type) = false →
     contains "ogg" (lower content_type) = false →
     contains "amr" (lower content_type) = false →
     _get_audio_encoding content_type = LINEAR16).
Proof.
  unfold _get_audio_encoding.
  destruct (contains "wav" _); [by repeat split|].
  destruct (contains "mp3" _ || contains "mpeg" _); [by repeat split|].
  destruct (contains "flac" _); [by repeat split|].
  destruct (contains "ogg" _); [by repeat split|].
  destruct (contains "amr" _) eqn:E; [by repeat split|].
  by rewrite (contains_amr_wb _ E).
Qed.

(** X2. A content type that names wide-band AMR ([amr-wb], in any case)
    and none of [wav], [mp3], [mpeg], [flac], [ogg] is given the
    narrow-band encoding AMR. *)
Theorem audio_encoding_amr_wb (content_type : string) :
  contains "amr-wb" (lower content_type) = true →
  contains "wav" (lower content_type) = false →
  contains "mp3" (lower content_type) = false →
  contains "mpeg" (lower content_type) = false →
  contains "flac" (lower content_type) = false →
  contains "ogg" (lower content_type) = false →
  _get_audio_encoding content_type = AMR.
Proof.
  intros Hwb Hwav Hmp3 Hmpeg Hflac Hogg. unfold _get_audio_encoding.
  rewrite Hwav, Hmp3, Hmpeg, Hflac, Hogg. simpl.
  destruct (contains "amr" _) eqn:E; [done|].
  by rewrite (contains_amr_wb _ E) in Hwb.
Qed.

Lemma audio_encoding_amr_wb_witness :
  contains "amr-wb" (lower "audio/AMR-WB") = true
  ∧ _get_audio_encoding "audio/AMR-WB" = AMR.
Proof.
  split; [reflexivity|].
  by apply (audio_encoding_amr_wb "audio/AMR-WB").
Defined.

Lemma slice_from_1_length {A} (stop : Z) (l : list A) :
  0 ≤ stop →
  Z.of_nat (length (slice_from_1 stop l)) ≤ Z.max 0 (stop - 1).
Proof.
  intros Hstop. unfold slice_from_1. rewrite length_take, length_drop.
  destruct (stop <? 0) eqn:E; [apply Z.ltb_lt in E; lia|]. lia.
Qed.

Lemma slice_from_1_sublist {A} (stop : Z) (l : list A) x :
  x ∈ slice_from_1 stop l → x ∈ drop 1 l.
Proof. unfold slice_from_1. apply subseteq_take. Qed.

(** X3. A transcription that [transcribe_audio] returns comes from a
    payload with at least one byte and from an answer of the API with at
    least one result whose first alternative is the transcript; its
    confidence passed the range check 0.0 to 1.0; its language is the
    configured one; and its alternatives are transcripts of later
    alternatives of the first result, at most [max_alternatives - 1] of
    them. *)
Theorem transcribe_audio_result
    (config : GoogleConfig) (recognize : recognize_outcome) (elapsed_ms : Z)
    (a : AudioAttachment) (r : TranscriptionResult) :
  0 ≤ max_alternatives config →
  transcribe_audio config recognize elapsed_ms a = Some r →
  data a ≠ []
  ∧ (∃ best rest others,
       recognize = RecognizeResponse ((best :: rest) :: others)
       ∧ transcript r = alt_transcript best
       ∧ confidence r = alt_confidence best
       ∧ ∀ t, t ∈ alternatives r → t ∈ map alt_transcript rest)
  ∧ SFleb f0 (confidence r) = true
  ∧ SFleb (confidence r) f1 = true
  ∧ language_code r = g_language_code config
  ∧ Z.of_nat (length (alternatives r)) ≤ Z.max 0 (max_alternatives config - 1).
Proof.
  intros Hmax. unfold transcribe_audio.
  destruct (data a) as [|b bs]; [done|].
  destruct recognize as [err|[|[|best rest] others]]; simpl; try done.
  destruct (confidence_in_range (alt_confidence best)) eqn:Hc; [|done].
  intros [= <-]. simpl.
  apply andb_true_iff in Hc as [Hlo Hhi].
  split; [done|]. split.
  - exists best, rest, others. repeat split.
    intros t Ht. apply list_elem_of_fmap in Ht as (x & -> & Hx).
    apply list_elem_of_fmap. exists x. split; [done|].
    by apply slice_from_1_sublist in Hx.
  - repeat split; try done.
    rewrite length_map. by apply slice_from_1_length.
Qed.

End SpeechCallSpec.

Module HtmlEscapeSpec.
Import PyStr PyStrSpec HtmlEscape.

Lemma replace_char_app old new x y :
  replace_char old new (x +:+ y)
  = replace_char old new x +:+ replace_char old new y.
Proof.
  induction x as [|a x IH]; [done|].
  rewrite app_String. cbn [replace_char]. by rewrite IH, app_assoc.
Qed.

(** After the replacement the replaced character is gone, unless the
    replacement text brings it back. *)
Lemma replace_char_removes old new s :
  has_char old new = false → has_char old (replace_char old new s) = false.
Proof.
  intros Hnew. induction s as [|a s IH]; [done|].
  cbn [replace_char]. rewrite has_char_app, IH.
  destruct (Ascii.eqb a old) eqn:E; [by rewrite Hnew|].
  simpl. by rewrite E.
Qed.

(** A character that is absent from the text and from the replacement
    stays absent. *)
Lemma replace_char_keeps_absent c old new s :
  has_char c new = false → has_char c s = false →
  has_char c (replace_char old new s) = false.
Proof.
  intros Hnew. induction s as [|a s IH]; [done|].
  cbn [replace_char has_char]. intros [Ha Hs]%orb_false_iff.
  rewrite has_char_app, IH by done.
  destruct (Ascii.eqb a old); [by rewrite Hnew|]. simpl. by rewrite Ha.
Qed.

(** X4. The escaped text contains no [<], no [>], no double quote and no
    single quote. *)
Theorem html_escape_no_specials (text : string) :
  has_char "<" (_html_escape text) = false
  ∧ has_char ">" (_html_escape text) = false
  ∧ has_char dquote (_html_escape text) = false
  ∧ has_char squote (_html_escape text) = false.
Proof.
  unfold _html_escape. repeat split.
  - do 3 (apply replace_char_keeps_absent; [done|]).
    by apply replace_char_removes.
  - do 2 (apply replace_char_keeps_absent; [done|]).
    by apply replace_char_removes.
  - apply replace_char_keeps_absent; [done|].
    by apply replace_char_removes.
  - by apply replace_char_removes.
Qed.

Lemma html_escape_cons a s :
  _html_escape (String a s) = _html_escape (String a "") +:+ _html_escape s.
Proof.
  unfold _html_escape. cbn [replace_char].
  rewrite !replace_char_app. cbn [replace_char]. by rewrite !app_nil_r.
Qed.

Lemma replace_char_absent old new s :
  has_char old s = false → replace_char old new s = s.
Proof.
  induction s as [|a s IH]; [done|].
  cbn [replace_char has_char]. intros [-> Hs]%orb_false_iff.
  by rewrite IH.
Qed.

Lemma html_escape_safe_char a :
  a ∉ specials → _html_escape (String a "") = String a "".
Proof.
  intros Ha. unfold _html_escape.
  assert (∀ c, c ∈ specials → has_char c (String a "") = false) as Hne.
  { intros c Hc. cbn [has_char]. rewrite orb_false_r.
    apply Ascii.eqb_neq. by intros ->. }
  rewrite (replace_char_absent "&") by (apply Hne; unfold specials; set_solver).
  rewrite (replace_char_absent "<") by (apply Hne; unfold specials; set_solver).
  rewrite (replace_char_absent ">") by (apply Hne; unfold specials; set_solver).
  rewrite (replace_char_absent dquote) by (apply Hne; unfold specials; set_solver).
  by rewrite (replace_char_absent squote) by (apply Hne; unfold specials; set_solver).
Qed.

(** The escape of one character, followed by anything, determines the
    character and what follows. *)
Lemma html_escape_char_inj a b x y :
  _html_escape (String a "") +:+ x = _html_escape (String b "") +:+ y →
  a = b ∧ x = y.
Proof.
  destruct (decide (a ∈ specials)) as [Ha|Ha], (decide (b ∈ specials)) as [Hb|Hb].
  - unfold specials in Ha, Hb.
    repeat (apply elem_of_cons in Ha as [->|Ha]);
      [..|by apply elem_of_nil in Ha];
      repeat (apply elem_of_cons in Hb as [->|Hb]);
      try (by apply elem_of_nil in Hb);
      vm_compute; intros H; by simplify_eq.
  - rewrite (html_escape_safe_char b Hb). unfold specials in Ha.
    repeat (apply elem_of_cons in Ha as [->|Ha]);
      [..|by apply elem_of_nil in Ha];
      vm_compute; intros H; simplify_eq;
      exfalso; apply Hb; unfold specials, dquote, squote; set_solver.
  - rewrite (html_escape_safe_char a Ha). unfold specials in Hb.
    repeat (apply elem_of_cons in Hb as [->|Hb]);
      [..|by apply elem_of_nil in Hb];
      vm_compute; intros H; simplify_eq;
      exfalso; apply Ha; unfold specials, dquote, squote; set_solver.
  - rewrite (html_escape_safe_char a Ha), (html_escape_safe_char b Hb).
    intros H. by simplify_eq.
Qed.

Lemma html_escape_nonempty a s : _html_escape (String a s) ≠ "".
Proof.
  rewrite html_escape_cons.
  destruct (decide (a ∈ specials)) as [Ha|Ha].
  - unfold specials in Ha.
    repeat (apply elem_of_cons in Ha as [->|Ha]);
      [..|by apply elem_of_nil in Ha]; by vm_compute.
  - by rewrite html_escape_safe_char.
Qed.

(** X5. Escaping loses nothing: two texts with the same escape are the
    same text. *)
Theorem html_escape_injective (s t : string) :
  _html_escape s = _html_escape t → s = t.
Proof.
  revert t. induction s as [|a s IH]; intros [|b t] H.
  - done.
  - symmetry in H. by apply html_escape_nonempty in H.
  - by apply html_escape_nonempty in H.
  - rewrite (html_escape_cons a), (html_escape_cons b) in H.
    apply html_escape_char_inj in H as [-> H]. f_equal. by apply IH.
Qed.

Lemma html_escape_injective_witness :
  _html_escape (String dquote "<b>") = _html_escape (String dquote "<b>")
  ∧ String dquote "<b>" = String dquote "<b>".
Proof.
  split; [reflexivity|].
  exact (html_escape_injective (String dquote "<b>") (String dquote "<b>")
           eq_refl).
Defined.

End HtmlEscapeSpec.

Module EmailProcessorMoreSpec.
Import PyStr PyStrSpec PyFloat Messages EmailProcessor EnhancedHeaders.

(** X6. With no successful outcome, the enhanced subject starts with the
    audio-only marker (the original subject if it already did, else
    ["[Audio] "] followed by it), and enhancing it again returns it
    unchanged. *)
Theorem enhance_subject_audio_idempotent
    (original_subject : string) (results : list (option TranscriptionResult)) :
  successful results = [] →
  let once := _enhance_subject original_subject results in
  startswith once "[Audio]" = true
  ∧ once = (if startswith original_subject "[Audio]" then original_subject
            else "[Audio] " +:+ original_subject)
  ∧ _enhance_subject once results = once.
Proof.
  intros Hnone once.
  assert (∀ s, _enhance_subject s results
               = if startswith s "[Audio]" then s else "[Audio] " +:+ s) as Hdef.
  { intros s. unfold _enhance_subject. rewrite Hnone.
    by destruct (startswith s "[Audio]"). }
  assert (startswith once "[Audio]" = true) as Hstart.
  { subst once. rewrite Hdef.
    destruct (startswith original_subject "[Audio]") eqn:E; [done|].
    change "[Audio] " with ("[Audio]" +:+ " ").
    rewrite app_assoc. apply startswith_app. }
  split; [done|]. split; [apply Hdef|]. by rewrite Hdef, Hstart.
Qed.

Lemma enhance_subject_audio_idempotent_witness :
  successful [None; None] = ([] : list TranscriptionResult)
  ∧ _enhance_subject (_enhance_subject "Voicemail from John" [None; None])
      [None; None]
    = "[Audio] Voicemail from John".
Proof.
  split; [reflexivity|].
  destruct (enhance_subject_audio_idempotent "Voicemail from John"
              [None; None] eq_refl) as (_ & _ & H).
  exact H.
Defined.

Lemma successful_somes (l : list TranscriptionResult) :
  successful (Some <$> l) = l.
Proof.
  unfold successful in *. induction l as [|r l IH]; [done|].
  simpl. by f_equal.
Qed.

(** X7. The enhanced message depends on the outcome list only through its
    successful entries, in order: dropping the failed entries changes
    neither the subject nor the body.  The labels [Audio File i] therefore
    count the successful transcriptions, not the payload positions. *)
Theorem enhanced_email_ignores_failures
    (m : VoicemailMessage) (results : list (option TranscriptionResult)) :
  _create_enhanced_email m results
  = _create_enhanced_email m (Some <$> successful results).
Proof.
  unfold _create_enhanced_email, _create_plain_text_body, body_lines,
    _enhance_subject.
  by rewrite successful_somes.
Qed.

Lemma join_app_tail sep (l1 l2 : list string) :
  l2 ≠ [] → ∃ pre, join sep (l1 ++ l2) = pre +:+ join sep l2.
Proof.
  intros Hne. induction l1 as [|x l1 [pre IH]]; [by exists ""|].
  destruct (l1 ++ l2) as [|y l] eqn:E.
  - by destruct l1, l2.
  - exists (x +:+ sep +:+ pre). simpl (_ ++ _). rewrite E, join_cons, IH.
    by rewrite !app_assoc.
Qed.

(** X8. A non-empty original body text ends the enhanced plain-text
    body, after its heading and an empty line, whatever the outcomes. *)
Theorem original_text_ends_body
    (m : VoicemailMessage) (results : list (option TranscriptionResult))
    (text : string) :
  body_text m = Some text → text ≠ "" →
  ∃ pre,
    _create_plain_text_body m results
    = pre +:+ "=== ORIGINAL MESSAGE ===" +:+ nl +:+ nl +:+ text.
Proof.
  intros Hbody Hne. unfold _create_plain_text_body, body_lines.
  rewrite Hbody. destruct text as [|c text]; [done|]. cbn [truthy default].
  apply join_app_tail. done.
Qed.

Lemma original_text_ends_body_witness :
  body_text Samples.voicemail_message
  = Some "You have a new voicemail message."
  ∧ ∃ pre,
      _create_plain_text_body Samples.voicemail_message
        [Some Samples.call_me_back]
      = pre +:+ "=== ORIGINAL MESSAGE ===" +:+ nl +:+ nl
            +:+ "You have a new voicemail message.".
Proof.
  split; [reflexivity|].
  by apply (original_text_ends_body Samples.voicemail_message
              [Some Samples.call_me_back]
              "You have a new voicemail message.").
Defined.

Lemma filter_kept_skipped name (headers : list (string * string)) :
  lower name ∈ skip_headers →
  List.filter (λ h, String.eqb (lower h.1) (lower name))
              (List.filter kept headers) = [].
Proof.
  intros Hskip. induction headers as [|h headers IH]; [done|].
  simpl. destruct (kept h) eqn:Hk; [|done].
  simpl. destruct (String.eqb_spec (lower h.1) (lower name)) as [Heq|]; [|done].
  unfold kept in Hk. rewrite Heq in Hk.
  by rewrite bool_decide_eq_true_2 in Hk.
Qed.

(** X9. Whatever headers the original message carried, the enhanced
    message has exactly one [Subject], one [From] and one [To] header, and
    they are the ones the service sets; and no [Cc], [Bcc], [Date] or
    [Message-ID] header of the original is carried over.  Header names
    compare without regard to case. *)
Theorem enhanced_headers_routing
    (headers : list (string * string)) (m : VoicemailMessage)
    (results : list (option TranscriptionResult)) :
  get_all "Subject" (enhanced_headers headers m results)
  = [_enhance_subject (subject m) results]
  ∧ get_all "From" (enhanced_headers headers m results) = [sender m]
  ∧ get_all "To" (enhanced_headers headers m results)
    = [join ", " (recipients m)]
  ∧ get_all "Cc" (enhanced_headers headers m results) = []
  ∧ get_all "Bcc" (enhanced_headers headers m results) = []
  ∧ get_all "Date" (enhanced_headers headers m results) = []
  ∧ get_all "Message-ID" (enhanced_headers headers m results) = [].
Proof.
  unfold get_all, enhanced_headers.
  repeat split; rewrite !List.filter_app, filter_kept_skipped;
    try reflexivity; vm_compute; set_solver.
Qed.

End EmailProcessorMoreSpec.

Module SmtpSendSpec.
Import SmtpSend.

Section Session.
Variable raises : smtp_call → bool.

Lemma attempt_all_through (calls : list smtp_call) :
  (attempt raises calls).1 = true
  ↔ ∀ c, c ∈ calls → raises c = false.
Proof.
  induction calls as [|c calls IH]; simpl.
  - split; [|done]. intros _ c Hc. by apply elem_of_nil in Hc.
  - destruct (raises c) eqn:Hc; simpl.
    + split; [done|]. intros H. rewrite H in Hc; [done|by left].
    + destruct (attempt raises calls) as [ok made]. simpl in *.
      rewrite IH. split.
      * intros H c' [->|Hc']%elem_of_cons; [done|by apply H].
      * intros H c' Hc'. apply H. by right.
Qed.

Lemma attempt_made_all (calls : list smtp_call) :
  (attempt raises calls).1 = true → (attempt raises calls).2 = calls.
Proof.
  induction calls as [|c calls IH]; simpl; [done|].
  destruct (raises c); [done|].
  destruct (attempt raises calls) as [ok made]. simpl in *.
  intros H. by rewrite IH.
Qed.

Lemma attempt_made_sub (calls : list smtp_call) c :
  c ∈ (attempt raises calls).2 → c ∈ calls.
Proof.
  induction calls as [|c' calls IH]; simpl; [done|].
  destruct (raises c').
  - simpl. intros ->%list_elem_of_singleton. by left.
  - destruct (attempt raises calls) as [ok made]. simpl in *.
    intros [->|H]%elem_of_cons; [by left | right; by apply IH].
Qed.

Lemma setup_calls_no_send config :
  (SendMessage ∉ setup_calls config) ∧ (Quit ∉ setup_calls config).
Proof.
  unfold setup_calls.
  destruct (use_ssl config), (use_tls config),
    (nonempty (user config) && nonempty (password config)); simpl;
    split; intros H;
    repeat (apply elem_of_cons in H as [H|H]; [done|]);
    by apply elem_of_nil in H.
Qed.

(** X10. [_send_email_sync] returns [True] exactly when none of the
    set-up calls and not [send_message] raises.  The calls made are then
    the set-up calls, [send_message] and [quit], in this order, whether
    [quit] raises or not. *)
Theorem send_succeeds_iff (config : OutboundSMTPConfig) :
  ((_send_email_sync raises config).1 = true
   ↔ (∀ c, c ∈ setup_calls config → raises c = false)
     ∧ raises SendMessage = false)
  ∧ ((_send_email_sync raises config).1 = true →
     (_send_email_sync raises config).2
     = setup_calls config ++ [SendMessage; Quit]).
Proof.
  unfold _send_email_sync, _create_smtp_client_sync.
  pose proof (attempt_all_through (setup_calls config)) as Hall.
  pose proof (attempt_made_all (setup_calls config)) as Hmade.
  destruct (attempt raises (setup_calls config)) as [client made].
  simpl in *. destruct client; simpl.
  - rewrite Hmade by done. split; [|done].
    rewrite negb_true_iff. split.
    + intros H. split; [by apply Hall | done].
    + by intros [_ H].
  - split; [|done]. split; [done|].
    intros [H _]. by apply Hall in H.
Qed.

(** X11. When a set-up call raises, [_send_email_sync] returns [False]
    having called neither [send_message] nor [quit]: a connection that
    was opened before [starttls] or [login] failed is not closed by this
    function. *)
Theorem send_setup_failure_skips_quit (config : OutboundSMTPConfig)
    (c : smtp_call) :
  c ∈ setup_calls config → raises c = true →
  (_send_email_sync raises config).1 = false
  ∧ (SendMessage ∉ (_send_email_sync raises config).2)
  ∧ (Quit ∉ (_send_email_sync raises config).2).
Proof.
  intros Hc Hr. unfold _send_email_sync, _create_smtp_client_sync.
  pose proof (attempt_all_through (setup_calls config)) as Hall.
  pose proof (attempt_made_sub (setup_calls config)) as Hsub.
  destruct (setup_calls_no_send config) as [Hs Hq].
  destruct (attempt raises (setup_calls config)) as [client made].
  simpl in *. destruct client.
  - assert (raises c = false) by (by apply Hall). congruence.
  - simpl. split; [done|]. split; intros H%Hsub; done.
Qed.
End Session.

End SmtpSendSpec.

Module FileManagerMoreSpec.
Import PyStr PyStrSpec Md5 PurePath Messages FileManager FileManagerSpec
       StorePredicates.

(** Two numerals followed by an underscore agree when the strings that
    start with them agree. *)
Lemma digits_prefix_unique a b x y :
  forall_chars is_digit a = true → forall_chars is_digit b = true →
  a +:+ "_" +:+ x = b +:+ "_" +:+ y → a = b.
Proof.
  revert b. induction a as [|c a IH]; intros [|d b] Ha Hb H.
  - done.
  - rewrite app_nil_l, app_String in H. injection H as <- _. by simpl in Hb.
  - rewrite app_nil_l, app_String in H. injection H as -> _. by simpl in Ha.
  - rewrite !app_String in H. injection H as -> H.
    simpl in Ha, Hb. apply andb_true_iff in Ha as [_ Ha].
    apply andb_true_iff in Hb as [_ Hb]. f_equal. by apply IH.
Qed.

Lemma safe_filename_index_inj (name1 name2 : string) (i j : nat) :
  _generate_safe_filename name1 i = _generate_safe_filename name2 j → i = j.
Proof.
  unfold _generate_safe_filename. intros H.
  apply (inj (String.app "audio_")) in H.
  apply digits_prefix_unique in H;
    [|apply zfill_digits, str_of_N_digits..].
  apply (f_equal N_of_str) in H.
  rewrite !zfill_value, !str_of_N_value in H. lia.
Qed.

(** X12. The stored name determines the index: two payloads at different
    positions never get the same stored name, whatever their original
    names. *)
Theorem safe_filename_index_injective
    (name1 name2 : string) (i j : nat) :
  _generate_safe_filename name1 i = _generate_safe_filename name2 j → i = j.
Proof. apply safe_filename_index_inj. Qed.

Lemma safe_filename_index_injective_witness :
  _generate_safe_filename "a.wav" 3 = _generate_safe_filename "a.wav" 3
  ∧ 3%nat = 3%nat.
Proof.
  split; [reflexivity|].
  exact (safe_filename_index_injective "a.wav" "a.wav" 3 3 eq_refl).
Defined.

Section Store.
Variable storage_path : pure_path.
Variable io : store_io.
Variable cid : string.

Lemma store_loop_all (st0 : storage) (l : list AudioAttachment) acc0 :
  (∀ i a, write io i a = Wrote (data a)) →
  stored_all cid st0 [] acc0 →
  stored_all cid st0 l
    (foldl (store_one storage_path io cid) acc0 (imap pair l)).
Proof.
  intros Hwrite Hinit. induction l as [|a l IH] using rev_ind; [done|].
  rewrite imap_app, foldl_app. simpl.
  destruct (foldl _ acc0 (imap pair l)) as [stored st] eqn:Hfold.
  destruct IH as (Hp & Hf & Hother & Hkeys & mtime & entries & Hdir & Hfiles).
  simpl in *. unfold store_one, _store_audio_file. simpl.
  rewrite Hdir, Hwrite, Nat.add_0_r.
  rewrite bool_decide_eq_true_2 by done. unfold stored_all. simpl.
  split; [done|]. split; [done|]. split; [|split].
  - intros k Hk. rewrite lookup_insert_ne by done. by apply Hother.
  - intros name. destruct (decide (filename a = name)) as [<-|Hne].
    + rewrite lookup_insert_eq. split; [|by eauto].
      intros _. exists a. split; [|done]. apply elem_of_app. right. by left.
    + rewrite lookup_insert_ne by done. rewrite Hkeys. split.
      * intros (a' & Ha' & Hn). exists a'. split; [|done].
        apply elem_of_app. by left.
      * intros (a' & Ha' & Hn). exists a'. split; [|done].
        apply elem_of_app in Ha' as [Ha'|Ha']; [done|].
        apply list_elem_of_singleton in Ha'. by subst.
  - eexists _, _. split; [apply lookup_insert_eq|].
    intros i a' Hi. destruct (decide (i = length l)) as [->|Hne].
    + rewrite lookup_app_r, Nat.sub_diag in Hi by done.
      injection Hi as <-. apply lookup_insert_eq.
    + assert (l !! i = Some a') as Hi'.
      { apply lookup_lt_Some in Hi as Hlt. rewrite length_app in Hlt.
        simpl in Hlt. rewrite lookup_app_l in Hi by lia. done. }
      rewrite lookup_insert_ne; [by apply Hfiles|].
      intros Heq. by apply safe_filename_index_inj in Heq.
Qed.
End Store.

Lemma stored_all_nil cid st st1 mtime entries :
  processed st1 = processed st →
  failed st1 = failed st →
  (∀ k, k ≠ cid → temp st1 !! k = temp st !! k) →
  temp st1 !! cid = Some (Dir mtime entries) →
  stored_all cid st [] (∅, st1).
Proof.
  intros Hp Hf Hother Hdir. unfold stored_all. simpl.
  split; [done|]. split; [done|]. split; [done|]. split.
  - intros name. rewrite lookup_empty. split.
    + by intros [? ?].
    + intros (a & Ha & _). by apply elem_of_nil in Ha.
  - exists mtime, entries. split; [done|]. by intros i a Hi.
Qed.

(** The store without its logging calls: when the work directory can be
    made and every write lands the payload bytes, a path is returned for
    exactly the attachment filenames, the work directory holds every
    payload under its stored name, and nothing else changes. *)
Lemma plain_store_all_written
    (storage_path : pure_path) (io : store_io) (m : VoicemailMessage)
    (st : storage) :
  (∀ c, temp st !! correlation_id m ≠ Some (File c)) →
  (temp st !! correlation_id m = None → mkdir_raises io = false) →
  (∀ i a, write io i a = Wrote (data a)) →
  let stored_files := (store_voicemail_files storage_path io m st).1 in
  let st' := (store_voicemail_files storage_path io m st).2 in
  (∀ name, is_Some (stored_files !! name)
           ↔ ∃ a, a ∈ audio_attachments m ∧ filename a = name)
  ∧ (∃ mtime entries,
       temp st' !! correlation_id m = Some (Dir mtime entries)
       ∧ ∀ i a, audio_attachments m !! i = Some a →
           entries !! _generate_safe_filename (filename a) i = Some (data a))
  ∧ processed st' = processed st
  ∧ failed st' = failed st
  ∧ (∀ k, k ≠ correlation_id m → temp st' !! k = temp st !! k).
Proof.
  intros Hnofile Hmkdir Hwrite. cbv zeta. unfold store_voicemail_files.
  set (cid := correlation_id m).
  assert (∃ st1, mkdir_work io cid st = (false, st1)
                 ∧ stored_all cid st [] (∅, st1)) as (st1 & -> & Hinit).
  { unfold mkdir_work.
    destruct (temp st !! cid) as [[c|mtime entries]|] eqn:Hw.
    - by destruct (Hnofile c).
    - exists st. split; [done|]. by eapply stored_all_nil.
    - rewrite Hmkdir by done. eexists. split; [done|].
      eapply stored_all_nil; simpl; [done|done| |apply lookup_insert_eq].
      intros k Hk. by rewrite lookup_insert_ne. }
  pose proof (store_loop_all storage_path io cid st (audio_attachments m)
                (∅, st1) Hwrite Hinit) as H.
  destruct (foldl _ _ _) as [stored st'].
  destruct H as (Hp & Hf & Hother & Hkeys & Hdir). simpl in *.
  split; [exact Hkeys|]. split; [exact Hdir|]. split; [exact Hp|].
  split; [exact Hf | exact Hother].
Qed.

Section Sweep.
Variable rm : string → rm_outcome.
Variables off cut : Z.

Lemma sweep_loop_keeps (items : list string) (m : gmap string node) k :
  eligible off cut (m !! k) = false →
  sweep_loop rm off cut items m !! k = m !! k.
Proof.
  revert m. induction items as [|item rest IH]; intros m Hk; [done|].
  rewrite sweep_loop_cons.
  destruct (m !! item) as [[c|mtime entries]|] eqn:Hitem; [by apply IH| |by apply IH].
  destruct (fromtimestamp off mtime <? cut) eqn:Hold; [|by apply IH].
  assert (k ≠ item) as Hne.
  { intros ->. rewrite Hitem in Hk. simpl in Hk. congruence. }
  destruct (rmtree (rm item) (Some (Dir mtime entries))) as [raised residue].
  destruct raised.
  - by rewrite lookup_place_ne.
  - rewrite IH; rewrite lookup_place_ne; done.
Qed.
End Sweep.

(** X15. Whatever the sweep meets (any listing, any deletion raising),
    an entry of the processed or failed area that is a plain file, or a
    directory whose modification time, read as local time, is not before
    [utcnow] minus the retention hours, is left exactly as it is; and the
    working area is not touched. *)
Theorem sweep_keeps_young
    (hours : Z) (io : sweep_io) (st : storage) :
  let cutoff := utcnow io - hours * 3600 in
  let st' := _schedule_old_file_cleanup hours io st in
  (∀ k, eligible (utc_offset io) cutoff (processed st !! k) = false →
        processed st' !! k = processed st !! k)
  ∧ (∀ k, eligible (utc_offset io) cutoff (failed st !! k) = false →
          failed st' !! k = failed st !! k)
  ∧ (∀ k mtime entries,
       processed st !! k = Some (Dir mtime entries) →
       utcnow io - mtime ≤ hours * 3600 + utc_offset io →
       processed st' !! k = Some (Dir mtime entries))
  ∧ temp st' = temp st.
Proof.
  cbv zeta. unfold _schedule_old_file_cleanup, _cleanup_old_directories.
  simpl. repeat split.
  - intros k Hk. by apply sweep_loop_keeps.
  - intros k Hk. by apply sweep_loop_keeps.
  - intros k mtime entries Hk Hage. rewrite sweep_loop_keeps; [done|].
    rewrite Hk. simpl. unfold fromtimestamp. apply Z.ltb_ge. lia.
Qed.

End FileManagerMoreSpec.

Module EmailTasksMoreSpec.
Import PyStr PurePath Messages Transcription EmailProcessor FileManager
       FileManagerSpec EmailTasks.

(** *** What the steps leave alone *)

Lemma cleanup_frame io cid success st a k :
  k ≠ cid →
  area_of a (cleanup_correlation_files io cid success st).1.2 !! k
  = area_of a st !! k.
Proof.
  intros Hk. unfold cleanup_correlation_files.
  destruct (temp st !! cid) as [work|] eqn:Hw.
  - destruct (cleanup_cases io cid success st work Hw)
      as (ok & temp' & target' & sp & -> & _). cbn [fst snd].
    by rewrite !lookup_put_ne.
  - by rewrite cleanup_no_work.
Qed.

Lemma cleanup_true_gone io cid success st :
  (cleanup_correlation_files io cid success st).1.1 = true →
  temp (cleanup_correlation_files io cid success st).1.2 !! cid = None.
Proof.
  unfold cleanup_correlation_files.
  destruct (temp st !! cid) as [work|] eqn:Hw.
  - destruct (cleanup_cases io cid success st work Hw)
      as (ok & temp' & target' & sp & -> & Hok & _). cbn [fst snd].
    intros ->. rewrite (Hok eq_refl). apply lookup_delete_eq.
  - by rewrite cleanup_no_work.
Qed.

Lemma store_audio_file_frame sp io cid att i st a k :
  k ≠ cid →
  area_of a (_store_audio_file sp io cid att i st).2 !! k = area_of a st !! k.
Proof.
  intros Hk. unfold _store_audio_file.
  destruct (temp st !! cid) as [[c|mtime entries]|]; [done| |done].
  destruct (write io i att) as [on_disk|residue]; [case_bool_decide|];
    cbn [snd]; by rewrite lookup_put_ne.
Qed.

Lemma store_loop_frame sp io cid (l : list (nat * AudioAttachment)) acc a k :
  k ≠ cid →
  area_of a (foldl (store_one sp io cid) acc l).2 !! k = area_of a acc.2 !! k.
Proof.
  intros Hk. revert acc. induction l as [|ia l IH]; intros acc; [done|].
  simpl. rewrite IH. unfold store_one.
  pose proof (store_audio_file_frame sp io cid ia.2 ia.1 acc.2 a k Hk) as H.
  by destruct (_store_audio_file _ _ _ _ _ _) as [[p|] st'].
Qed.

Lemma store_frame sp io (m : VoicemailMessage) st a k :
  k ≠ correlation_id m →
  area_of a (store_voicemail_files sp io m st).2 !! k = area_of a st !! k.
Proof.
  intros Hk. unfold store_voicemail_files.
  destruct (mkdir_work io (correlation_id m) st) as [raised st1] eqn:Hmk.
  assert (area_of a st1 !! k = area_of a st !! k) as Hst1.
  { unfold mkdir_work in Hmk.
    destruct (temp st !! correlation_id m) as [[c|mtime entries]|];
      [by injection Hmk as _ <-..|].
    destruct (mkdir_raises io); injection Hmk as _ <-; [done|].
    destruct a; simpl; by rewrite ?lookup_insert_ne. }
  destruct raised.
  - simpl. rewrite <- Hst1.
    by apply (cleanup_frame (store_cleanup io) (correlation_id m) true st1).
  - by rewrite store_loop_frame.
Qed.

Lemma step_store_frame e (m : VoicemailMessage) st a k :
  k ≠ correlation_id m →
  area_of a (step_store e m st).2 !! k = area_of a st !! k.
Proof.
  intros Hk. unfold step_store.
  destruct (has_audio_attachments m); [|done].
  pose proof (store_frame (storage_path e) (on_store e) m st a k Hk) as H.
  by destruct (store_voicemail_files _ _ m st).
Qed.

Lemma successful_length (l : list (option TranscriptionResult)) :
  (length (successful l) ≤ length l)%nat.
Proof.
  unfold successful. induction l as [|o l IH]; [done|].
  change (omap id (o :: l))
    with (match o with Some r => r :: omap id l | None => omap id l end).
  destruct o; simpl; lia.
Qed.

Lemma gather_length f completion (tasks : list AudioAttachment) :
  (length (gather f completion tasks) ≤ length tasks)%nat.
Proof.
  unfold gather. set (slots := foldl _ _ _).
  assert (length slots = length tasks) as <-.
  { subst slots.
    by rewrite TranscriptionSpec.foldl_finish_length, length_replicate. }
  induction slots as [|o slots IH]; [done|].
  change (omap id (o :: slots))
    with (match o with Some g => g :: omap id slots | None => omap id slots end).
  destruct o; simpl; lia.
Qed.

Lemma transcribe_multiple_length f completion (l : list AudioAttachment) :
  (length (transcribe_multiple f completion l) ≤ length l)%nat.
Proof.
  unfold transcribe_multiple. destruct l as [|a l]; [done|].
  rewrite TranscriptionSpec.collect_fold. cbn [fst app].
  rewrite length_map. apply gather_length.
Qed.

End EmailTasksMoreSpec.

Module InboundSpec.
Import PyStr PyStrSpec PurePath Messages EmailProcessor EnhancedHeaders
       FileManager CorrelationId InboundMessage SmtpHandler.

(** X20. Given the thirty-two hexadecimal digits of a UUID, the
    generated correlation id is ["req_"] followed by twelve hexadecimal
    digits: sixteen characters without a slash.  Joined to the working
    area it is therefore one path component, so the work directory of the
    id lies directly in [temp] and carries the id as its name. *)
Theorem correlation_id_is_component (uuid4_hex : string) :
  forall_chars is_hex uuid4_hex = true →
  String.length uuid4_hex = 32%nat →
  let cid := generate_correlation_id uuid4_hex in
  String.length cid = 16%nat
  ∧ startswith cid "req_" = true
  ∧ forall_chars is_hex (drop_str 4 cid) = true
  ∧ has_char "/" cid = false
  ∧ ∀ storage_path,
      parent (work_dir_of storage_path cid) = truediv storage_path "temp"
      ∧ name (work_dir_of storage_path cid) = cid.
Proof.
  intros Hhex Hlen cid. subst cid. unfold generate_correlation_id.
  assert (forall_chars is_hex (take_str 12 uuid4_hex) = true) as Hh
    by by apply forall_chars_take.
  assert (has_char "/" ("req_" +:+ take_str 12 uuid4_hex) = false) as Hslash.
  { rewrite has_char_app. by rewrite (forall_chars_lacks is_hex "/" _ eq_refl Hh). }
  split; [rewrite app_length, take_str_length, Hlen; reflexivity|].
  split; [apply startswith_app|]. split; [exact Hh|]. split; [exact Hslash|].
  intros storage_path. unfold work_dir_of.
  rewrite (PurePathSpec.truediv_component _ ("req_" +:+ _)); [|done..].
  split; [apply PurePathSpec.parent_app | apply PurePathSpec.name_app].
Qed.

Lemma correlation_id_is_component_witness :
  forall_chars is_hex "7c8c9c33fa944e0e94b34bad6d92ec33" = true
  ∧ String.length "7c8c9c33fa944e0e94b34bad6d92ec33" = 32%nat
  ∧ generate_correlation_id "7c8c9c33fa944e0e94b34bad6d92ec33"
    = "req_7c8c9c33fa94"
  ∧ has_char "/" (generate_correlation_id "7c8c9c33fa944e0e94b34bad6d92ec33")
    = false.
Proof.
  split; [reflexivity|]. split; [reflexivity|]. split; [reflexivity|].
  destruct (correlation_id_is_component "7c8c9c33fa944e0e94b34bad6d92ec33"
              eq_refl eq_refl) as (_ & _ & _ & H & _).
  exact H.
Defined.

(** *** Stripping *)

Lemma first_char_rev_app s t :
  first_char (String.rev_app s t)
  = match last_char s with Some a => Some a | None => first_char t end.
Proof.
  revert t. induction s as [|a s IH]; intros t; [done|].
  simpl. rewrite IH. by destruct (last_char s).
Qed.

Lemma last_char_rev_app s t :
  last_char (String.rev_app s t)
  = match last_char t with Some b => Some b | None => first_char s end.
Proof.
  revert t. induction s as [|a s IH]; intros t; simpl.
  - by destruct (last_char t).
  - rewrite IH. simpl. by destruct (last_char t).
Qed.

Lemma first_char_lstrip s a : first_char (lstrip s) = Some a → is_space a = false.
Proof.
  induction s as [|b s IH]; [done|]. simpl.
  destruct (is_space b) eqn:E; [done|]. simpl. by intros [= <-].
Qed.

Lemma last_char_lstrip s a : last_char (lstrip s) = Some a → last_char s = Some a.
Proof.
  induction s as [|b s IH]; [done|]. cbn [lstrip].
  destruct (is_space b); [|done].
  intros H. simpl. by rewrite (IH H).
Qed.

Lemma has_char_lstrip c s : has_char c s = false → has_char c (lstrip s) = false.
Proof.
  induction s as [|b s IH]; [done|]. cbn [lstrip].
  destruct (is_space b); [|done].
  simpl. intros [_ H]%orb_false_iff. by apply IH.
Qed.

Lemma has_char_rev c s : has_char c (String.rev s) = has_char c s.
Proof. unfold String.rev. by rewrite has_char_rev_app, orb_false_r. Qed.

Lemma strip_clean s :
  (∀ a, first_char (strip s) = Some a → is_space a = false)
  ∧ (∀ a, last_char (strip s) = Some a → is_space a = false)
  ∧ ∀ c, has_char c s = false → has_char c (strip s) = false.
Proof.
  unfold strip, rstrip, String.rev. repeat split.
  - intros a. rewrite first_char_rev_app. simpl.
    destruct (last_char (lstrip _)) as [b|] eqn:Hl; [|done].
    intros [= ->]. apply last_char_lstrip in Hl.
    rewrite last_char_rev_app in Hl. simpl in Hl.
    by apply first_char_lstrip in Hl.
  - intros a. rewrite last_char_rev_app. simpl. apply first_char_lstrip.
  - intros c Hc. rewrite has_char_rev_app, orb_false_r.
    apply has_char_lstrip. rewrite has_char_rev_app, orb_false_r.
    by apply has_char_lstrip.
Qed.

Lemma header_recipients_clean value r :
  r ∈ header_recipients value →
  has_char "," r = false
  ∧ (∀ a, first_char r = Some a → is_space a = false)
  ∧ (∀ a, last_char r = Some a → is_space a = false).
Proof.
  unfold header_recipients.
  destruct value as [[|c v]|];
    [by intros H%elem_of_nil| |by intros H%elem_of_nil].
  intros (x & -> & Hx)%list_elem_of_fmap.
  destruct (strip_clean x) as (Hf & Hl & Hc).
  split; [|done]. apply Hc.
  by apply (split_go_no_sep "," (String c v) "" x).
Qed.

(** X21. Every recipient that [from_email_message] collects from the
    [To], [Cc] and [Bcc] headers is free of commas and has no white space
    at its start or at its end. *)
Theorem recipients_clean (to cc bcc : option string) (r : string) :
  r ∈ parse_recipients to cc bcc →
  has_char "," r = false
  ∧ (∀ a, first_char r = Some a → is_space a = false)
  ∧ (∀ a, last_char r = Some a → is_space a = false).
Proof.
  unfold parse_recipients. rewrite !elem_of_app.
  intros [H|[H|H]]; by eapply header_recipients_clean.
Qed.

Lemma recipients_clean_witness :
  "b@y" ∈ parse_recipients (Some "Doe, John <j@x>") None (Some "  b@y ")
  ∧ has_char "," "b@y" = false.
Proof.
  assert ("b@y" ∈ parse_recipients (Some "Doe, John <j@x>") None
                    (Some "  b@y ")) as Hin.
  { vm_compute. do 2 right. left. }
  split; [exact Hin|].
  destruct (recipients_clean _ _ _ _ Hin) as [H _]. exact H.
Defined.

Lemma enhanced_to_header (headers : list (string * string))
    (m : VoicemailMessage) (results : list (option TranscriptionResult)) :
  get_all "To" (enhanced_headers headers m results)
  = [join ", " (recipients m)].
Proof.
  unfold get_all, enhanced_headers.
  rewrite !List.filter_app, EmailProcessorMoreSpec.filter_kept_skipped;
    [reflexivity|]. vm_compute. set_solver.
Qed.

(** X22. For a message whose recipients were collected from the inbound
    headers, every address of the inbound [Bcc] header is written into the
    [To] header of the enhanced message. *)
Theorem bcc_addresses_in_to_header
    (headers : list (string * string)) (m : VoicemailMessage)
    (results : list (option TranscriptionResult))
    (to cc : option string) (bcc addr : string) :
  recipients m = parse_recipients to cc (Some bcc) →
  bcc ≠ "" →
  addr ∈ split "," bcc →
  ∃ value,
    get_all "To" (enhanced_headers headers m results) = [value]
    ∧ occurs_in (strip addr) value.
Proof.
  intros Hrec Hne Haddr. exists (join ", " (recipients m)).
  split; [apply enhanced_to_header|].
  apply occurs_in_join. rewrite Hrec. unfold parse_recipients.
  rewrite !elem_of_app. do 2 right.
  unfold header_recipients. destruct bcc as [|c bcc]; [done|].
  apply list_elem_of_fmap. by exists addr.
Qed.

Lemma bcc_addresses_in_to_header_witness :
  recipients MoreSamples.bcc_message
  = parse_recipients (Some "user@company.com") None
      (Some "boss@company.com, audit@company.com")
  ∧ " audit@company.com" ∈ split "," "boss@company.com, audit@company.com"
  ∧ ∃ value,
      get_all "To" (enhanced_headers [("Bcc", "boss@company.com")]
                      MoreSamples.bcc_message []) = [value]
      ∧ occurs_in "audit@company.com" value.
Proof.
  assert (" audit@company.com"
          ∈ split "," "boss@company.com, audit@company.com") as Hin.
  { vm_compute. right. left. }
  split; [reflexivity|]. split; [exact Hin|].
  apply (bcc_addresses_in_to_header [("Bcc", "boss@company.com")]
           MoreSamples.bcc_message [] (Some "user@company.com") None
           "boss@company.com, audit@company.com" " audit@company.com");
    [reflexivity | discriminate | exact Hin].
Defined.

(** *** Attachments *)

Lemma attachment_loop (parts : list mime_part) audio others :
  ∃ audio' others',
    foldl attachment_step (Some (audio, others)) parts
    = Some (audio ++ audio', others ++ others')
    ∧ Forall well_formed audio'
    ∧ (length audio' + length others'
       = length (List.filter is_attachment parts))%nat.
Proof.
  revert audio others. induction parts as [|part parts IH]; intros audio others.
  - exists [], []. by rewrite !List.app_nil_r.
  - cbn [foldl attachment_step List.filter]. fold (is_attachment part).
    destruct (is_attachment part).
    + destruct (startswith (get_content_type part) "audio/") eqn:Haudio.
      * unfold new_AudioAttachment, validate_audio_type. rewrite Haudio.
        cbn [negb].
        match goal with
        | |- context [foldl _ (Some (audio ++ [?a], _)) _] =>
            destruct (IH (audio ++ [a]) others)
              as (audio' & others' & -> & Hwf & Hlen);
            exists (a :: audio'), others'
        end.
        rewrite <- !List.app_assoc. split; [done|]. split.
        -- constructor; [by split|done].
        -- simpl. lia.
      * match goal with
        | |- context [foldl _ (Some (_, others ++ [?o])) _] =>
            destruct (IH audio (others ++ [o]))
              as (audio' & others' & -> & Hwf & Hlen);
            exists audio', (o :: others')
        end.
        rewrite <- !List.app_assoc. split; [done|]. split; [done|].
        simpl. lia.
    + destruct (IH audio others) as (audio' & others' & -> & Hwf & Hlen).
      by exists audio', others'.
Qed.

Lemma total_size_well_formed (l : list AudioAttachment) :
  Forall well_formed l →
  foldr (λ attachment total, size_bytes attachment + total) 0 l
  = Z.of_nat (length (List.concat (map data l))).
Proof.
  induction 1 as [|a l [_ Ha] _ IH]; [done|].
  simpl. rewrite IH, Ha, length_app. lia.
Qed.

(** X23. The attachment extraction of [from_email_message] never fails
    on the validator: every part it classifies as audio has a content
    type starting with [audio/], and is given the length of its data as
    its size.  Each part with [attachment] in its disposition ends up in
    exactly one of the two lists, and the total audio size of a message
    carrying these attachments is the number of audio bytes. *)
Theorem attachments_extracted (is_multipart : bool) (parts : list mime_part) :
  ∃ audio others,
    extract_attachments is_multipart parts = Some (audio, others)
    ∧ Forall well_formed audio
    ∧ (is_multipart = true →
       (length audio + length others
        = length (List.filter is_attachment parts))%nat)
    ∧ ∀ m, audio_attachments m = audio →
        get_total_audio_size m
        = Z.of_nat (length (List.concat (map data audio))).
Proof.
  unfold extract_attachments. destruct is_multipart.
  - destruct (attachment_loop parts [] []) as (audio & others & -> & Hwf & Hlen).
    exists audio, others. split; [done|]. split; [done|]. split; [done|].
    intros m Hm. unfold get_total_audio_size. rewrite Hm.
    by apply total_size_well_formed.
  - exists [], []. split; [done|]. split; [done|]. split; [done|].
    intros m Hm. unfold get_total_audio_size. by rewrite Hm.
Qed.

(** X24. [handle_DATA] hands a message to the queue only when it was
    built, its total audio size does not exceed the configured megabytes,
    and the reply is then the 250 acceptance, the queued message being the
    built one.  A message over the limit gets the 552 reply and is not
    queued; and with a non-negative limit a message without audio is never
    refused for its size. *)
Theorem handle_data_size_limit
    (max_audio_size_mb : Z) (parsed : option VoicemailMessage)
    (delay_raises : bool) :
  let '(reply, queued) := handle_DATA max_audio_size_mb parsed delay_raises in
  (∀ m, queued = Some m →
        parsed = Some m
        ∧ get_total_audio_size m ≤ max_audio_size_mb * 1048576
        ∧ delay_raises = false
        ∧ reply = "250 Message accepted for delivery")
  ∧ (∀ m, parsed = Some m →
          max_audio_size_mb * 1048576 < get_total_audio_size m →
          reply = "552 Message size exceeds maximum allowed" ∧ queued = None)
  ∧ (∀ m, parsed = Some m → audio_attachments m = [] →
          0 ≤ max_audio_size_mb →
          reply ≠ "552 Message size exceeds maximum allowed").
Proof.
  unfold handle_DATA, max_audio_size_bytes.
  destruct parsed as [m0|]; [|by repeat split].
  destruct (_ <? _) eqn:Hbig.
  - apply Z.ltb_lt in Hbig. split; [done|]. split; [done|].
    intros m [= <-] Hnone Hmax. unfold get_total_audio_size in Hbig.
    rewrite Hnone in Hbig. simpl in Hbig. lia.
  - apply Z.ltb_ge in Hbig. destruct delay_raises.
    + split; [done|]. split; [|done]. intros m [= <-] H. lia.
    + split; [|split; [|done]].
      * intros m [= <-]. repeat split; [lia|done..].
      * intros m [= <-] H. lia.
Qed.

End InboundSpec.

Module LoggedFileManagerSpec.
Import PyStr PyStrSpec PurePath Messages FileManager FileManagerSpec
       StorePredicates Logging LoggedFileManager.

Lemma log_debug_raises level :
  log_raises level DEBUG ["filename"; "stored_path"; "size_bytes"]
  = (level <=? DEBUG).
Proof. unfold log_raises, isEnabledFor. apply andb_true_r. Qed.

Lemma log_error_raises level :
  log_raises level ERROR ["filename"; "size_bytes"] = (level <=? ERROR).
Proof. unfold log_raises, isEnabledFor. apply andb_true_r. Qed.

Lemma lookup_put_eq a k o st : area_of a (put a k o st) !! k = o.
Proof. by rewrite area_of_put_eq, lookup_place_eq. Qed.

Lemma work_dir_only_refl cid st :
  work_dir_present cid st → work_dir_only cid st st.
Proof. by intros H. Qed.

Lemma work_dir_only_trans cid st1 st2 st3 :
  work_dir_only cid st1 st2 → work_dir_only cid st2 st3 →
  work_dir_only cid st1 st3.
Proof.
  intros (_ & Hp & Hf & Ht) (Hd & Hp' & Hf' & Ht').
  split; [done|]. split; [congruence|]. split; [congruence|].
  intros k Hk. rewrite Ht' by done. by apply Ht.
Qed.

Section Store.
Variable storage_path : pure_path.
Variable level : Z.
Variable io : store_io.
Variable cid : string.

(** The body of the [try], when the work directory is there. *)
Lemma plain_store_audio_file a i st :
  work_dir_present cid st →
  (FileManager._store_audio_file storage_path io cid a i st).1
  = (if lands (write io i a) a
     then Some (truediv (work_dir_of storage_path cid)
                  (_generate_safe_filename (filename a) i))
     else None)
  ∧ work_dir_only cid st
      (FileManager._store_audio_file storage_path io cid a i st).2.
Proof.
  intros (mtime & entries & Hd). unfold FileManager._store_audio_file, lands.
  rewrite Hd.
  destruct (write io i a) as [on_disk|[c|]]; [case_bool_decide| |];
    cbn [fst snd];
    (split; [done|]);
    (split; [eexists _, _; apply (lookup_put_eq Temp)|]);
    (split; [done|]); (split; [done|]);
    intros k Hk; by apply (lookup_put_ne Temp Temp).
Qed.

Lemma logged_store_audio_file a i st :
  LoggedFileManager._store_audio_file storage_path level io cid a i st
  = (match (FileManager._store_audio_file storage_path io cid a i st).1 with
     | Some file_path =>
         if level <=? DEBUG
         then (if level <=? ERROR then Raises else Returns None)
         else Returns (Some file_path)
     | None => if level <=? ERROR then Raises else Returns None
     end,
     (FileManager._store_audio_file storage_path io cid a i st).2).
Proof.
  unfold LoggedFileManager._store_audio_file.
  rewrite log_debug_raises, log_error_raises.
  destruct (FileManager._store_audio_file _ _ _ _ _ _) as [[p|] st']; simpl;
    by repeat case_match.
Qed.

(** An attachment that is not written in full, or any attachment when the
    debug call is made, ends the loop with an exception when the error
    call is made too. *)
Lemma store_loop_raises (items : list (nat * AudioAttachment)) stored st i a :
  level ≤ ERROR →
  work_dir_present cid st →
  (i, a) ∈ items →
  level ≤ DEBUG ∨ lands (write io i a) a = false →
  ∃ st2,
    store_loop storage_path level io cid items stored st = (Raises, st2)
    ∧ work_dir_only cid st st2.
Proof.
  intros Herr Hd Hin Hbad. revert stored st Hd.
  induction items as [|[j b] items IH]; intros stored st Hd.
  { by apply elem_of_nil in Hin. }
  cbn [store_loop]. rewrite logged_store_audio_file.
  destruct (plain_store_audio_file b j st Hd) as [Hbody Hkept].
  destruct (FileManager._store_audio_file _ _ _ _ _ _) as [body st'].
  cbn [fst snd] in *. subst body.
  assert ((level <=? ERROR) = true) as -> by (apply Z.leb_le; lia).
  destruct (lands (write io j b) b) eqn:Hl.
  - destruct (level <=? DEBUG) eqn:Hdbg; [by exists st'|].
    apply elem_of_cons in Hin as [Heq|Hin].
    { injection Heq as -> ->. apply Z.leb_gt in Hdbg.
      destruct Hbad as [Hbad|Hbad]; [lia | congruence]. }
    edestruct (IH Hin) as (st2 & -> & Hst2); [apply Hkept|].
    exists st2. split; [done|]. by eapply work_dir_only_trans.
  - by exists st'.
Qed.

(** When the debug call is not made and every attachment is written in
    full, the loop is the one of the store without logging. *)
Lemma store_loop_lands (items : list (nat * AudioAttachment)) stored st :
  DEBUG < level →
  work_dir_present cid st →
  (∀ i a, (i, a) ∈ items → lands (write io i a) a = true) →
  store_loop storage_path level io cid items stored st
  = (Returns (foldl (store_one storage_path io cid) (stored, st) items).1,
     (foldl (store_one storage_path io cid) (stored, st) items).2).
Proof.
  intros Hlevel Hd Hl. revert stored st Hd.
  induction items as [|[j b] items IH]; intros stored st Hd; [done|].
  cbn [store_loop foldl]. rewrite logged_store_audio_file.
  unfold store_one at 2 4. cbn [fst snd].
  destruct (plain_store_audio_file b j st Hd) as [Hbody Hkept].
  destruct (FileManager._store_audio_file _ _ _ _ _ _) as [body st'].
  cbn [fst snd] in *. subst body.
  rewrite (Hl j b) by apply list_elem_of_here.
  assert ((level <=? DEBUG) = false) as -> by (apply Z.leb_gt; lia).
  apply IH; [|apply Hkept].
  intros i a Hin. apply Hl. by apply list_elem_of_further.
Qed.
End Store.

Lemma mkdir_work_made io cid st :
  (∀ c, temp st !! cid ≠ Some (File c)) →
  (temp st !! cid = None → mkdir_raises io = false) →
  ∃ st1, mkdir_work io cid st = (false, st1) ∧ work_dir_only cid st st1.
Proof.
  intros Hnofile Hmkdir. unfold mkdir_work.
  destruct (temp st !! cid) as [[c|mtime entries]|] eqn:Hw.
  - by destruct (Hnofile c).
  - exists st. split; [done|]. apply work_dir_only_refl. by eexists _, _.
  - rewrite Hmkdir by done. eexists. split; [done|].
    split; [eexists _, _; apply lookup_insert_eq|].
    split; [done|]. split; [done|].
    intros k Hk. simpl. by rewrite lookup_insert_ne.
Qed.

Lemma mkdir_work_dir io cid st st1 :
  mkdir_work io cid st = (false, st1) → work_dir_present cid st1.
Proof.
  unfold mkdir_work.
  destruct (temp st !! cid) as [[c|mtime entries]|] eqn:Hw; [done| |].
  - intros [= <-]. by eexists _, _.
  - destruct (mkdir_raises io); [done|]. intros [= <-].
    eexists _, _. apply lookup_insert_eq.
Qed.

(** At a level above [DEBUG], with every write leaving the full length
    on disk, the logging calls have no part in the store. *)
Lemma store_agrees storage_path level io (m : VoicemailMessage) st :
  DEBUG < level →
  (∀ i a, lands (write io i a) a = true) →
  LoggedFileManager.store_voicemail_files storage_path level io m st
  = FileManager.store_voicemail_files storage_path io m st.
Proof.
  intros Hlevel Hl.
  unfold LoggedFileManager.store_voicemail_files,
    FileManager.store_voicemail_files.
  destruct (mkdir_work io (correlation_id m) st) as [raised st1] eqn:Hmk.
  destruct raised; [done|].
  rewrite store_loop_lands;
    [by destruct (foldl _ _ _) | done | by eapply mkdir_work_dir | done].
Qed.

(** X13. At a log level above [DEBUG], when the work directory can be
    made (it is there as a directory, or it is absent and [mkdir] does not
    raise) and every write lands the payload bytes,
    [store_voicemail_files] returns a path for exactly the attachment
    filenames of the message, and the work directory then holds, for
    every position, the payload bytes under the stored name of that
    position.  Nothing else changes: not the processed area, not the
    failed area, not another id's work directory. *)
Theorem store_all_written
    (storage_path : pure_path) (level : Z) (io : store_io)
    (m : VoicemailMessage) (st : storage) :
  DEBUG < level →
  (∀ c, temp st !! correlation_id m ≠ Some (File c)) →
  (temp st !! correlation_id m = None → mkdir_raises io = false) →
  (∀ i a, write io i a = Wrote (data a)) →
  let stored_files :=
    (LoggedFileManager.store_voicemail_files storage_path level io m st).1 in
  let st' :=
    (LoggedFileManager.store_voicemail_files storage_path level io m st).2 in
  (∀ name, is_Some (stored_files !! name)
           ↔ ∃ a, a ∈ audio_attachments m ∧ filename a = name)
  ∧ (∃ mtime entries,
       temp st' !! correlation_id m = Some (Dir mtime entries)
       ∧ ∀ i a, audio_attachments m !! i = Some a →
           entries !! _generate_safe_filename (filename a) i = Some (data a))
  ∧ processed st' = processed st
  ∧ failed st' = failed st
  ∧ (∀ k, k ≠ correlation_id m → temp st' !! k = temp st !! k).
Proof.
  intros Hlevel Hnofile Hmkdir Hwrite. cbv zeta.
  rewrite store_agrees; [|done|].
  - by apply FileManagerMoreSpec.plain_store_all_written.
  - intros i a. unfold lands. rewrite Hwrite. by apply bool_decide_eq_true_2.
Qed.

Lemma store_all_written_witness :
  DEBUG < INFO
  ∧ (∀ i a, write Samples.plain_store_io i a = Wrote (data a))
  ∧ is_Some ((LoggedFileManager.store_voicemail_files (of_str "/app/storage")
                INFO Samples.plain_store_io Samples.voicemail_message
                Samples.empty_storage).1 !! "voicemail_test.wav").
Proof.
  assert (DEBUG < INFO) as H0 by (unfold DEBUG, INFO; lia).
  assert (∀ c, temp Samples.empty_storage
                 !! correlation_id Samples.voicemail_message
               ≠ Some (File c)) as H1 by done.
  assert (∀ i a, write Samples.plain_store_io i a = Wrote (data a)) as H3
    by done.
  split; [exact H0|]. split; [exact H3|].
  destruct (store_all_written (of_str "/app/storage") INFO
              Samples.plain_store_io Samples.voicemail_message
              Samples.empty_storage H0 H1 (λ _, eq_refl) H3) as (Hkeys & _).
  apply Hkeys. exists Samples.audio_attachment.
  split; [apply list_elem_of_here | reflexivity].
Defined.

(** The cleanup with [success=True] leaves the failed area alone. *)
Lemma cleanup_true_keeps_failed io cid st :
  failed (_cleanup_correlation_files io cid true st).1.2 = failed st.
Proof.
  destruct (temp st !! cid) as [work|] eqn:Hw.
  - by destruct (cleanup_cases io cid true st work Hw)
      as (ok & temp' & target' & sp & -> & _).
  - by rewrite cleanup_no_work.
Qed.

Lemma relocates_processed io cid st st' :
  processed st' = processed st →
  relocates io cid true st' = relocates io cid true st.
Proof. intros H. unfold relocates. simpl. by rewrite H. Qed.

(** What the [except] branch of the store leaves, after the loop raised. *)
Lemma store_raised storage_path level io (m : VoicemailMessage) st i a :
  level ≤ ERROR →
  (∀ c, temp st !! correlation_id m ≠ Some (File c)) →
  (temp st !! correlation_id m = None → mkdir_raises io = false) →
  audio_attachments m !! i = Some a →
  level ≤ DEBUG ∨ lands (write io i a) a = false →
  ∃ st2,
    work_dir_only (correlation_id m) st st2
    ∧ LoggedFileManager.store_voicemail_files storage_path level io m st
      = (∅, (_cleanup_correlation_files (store_cleanup io) (correlation_id m)
               true st2).1.2).
Proof.
  intros Herr Hnofile Hmkdir Hi Hbad.
  unfold LoggedFileManager.store_voicemail_files.
  destruct (mkdir_work_made io (correlation_id m) st Hnofile Hmkdir)
    as (st1 & -> & Hst1).
  destruct (store_loop_raises storage_path level io (correlation_id m)
              (imap pair (audio_attachments m)) ∅ st1 i a)
    as (st2 & -> & Hst2); [done|apply Hst1| |done|].
  { apply list_elem_of_lookup. exists i. by rewrite list_lookup_imap, Hi. }
  exists st2. split; [by eapply work_dir_only_trans | done].
Qed.

(** X14. With the error call enabled (a level up to [ERROR]), as soon as
    one attachment is not written in full, or with the debug call enabled
    (level [DEBUG] or below) for any message with an attachment,
    [store_voicemail_files] returns the empty dictionary although the
    work directory could be made; it leaves the failed area as it was,
    and when the relocation of its cleanup goes through, the work
    directory has become the id's entry in the processed area. *)
Theorem unwritten_payload_ends_in_processed
    (storage_path : pure_path) (level : Z) (io : store_io)
    (m : VoicemailMessage) (st : storage) (i : nat) (a : AudioAttachment) :
  level ≤ ERROR →
  (∀ c, temp st !! correlation_id m ≠ Some (File c)) →
  (temp st !! correlation_id m = None → mkdir_raises io = false) →
  audio_attachments m !! i = Some a →
  level ≤ DEBUG ∨ lands (write io i a) a = false →
  let stored_files :=
    (LoggedFileManager.store_voicemail_files storage_path level io m st).1 in
  let st' :=
    (LoggedFileManager.store_voicemail_files storage_path level io m st).2 in
  stored_files = ∅
  ∧ failed st' = failed st
  ∧ (∀ k, k ≠ correlation_id m → temp st' !! k = temp st !! k)
  ∧ (relocates (store_cleanup io) (correlation_id m) true st = true →
     temp st' !! correlation_id m = None
     ∧ ∃ mtime entries,
         processed st' !! correlation_id m = Some (Dir mtime entries)).
Proof.
  intros Herr Hnofile Hmkdir Hi Hbad. cbv zeta.
  destruct (store_raised storage_path level io m st i a
              Herr Hnofile Hmkdir Hi Hbad)
    as (st2 & ((mtime & entries & Hd) & Hp & Hf & Ht) & ->).
  cbn [fst snd]. split; [done|]. split.
  { by rewrite cleanup_true_keeps_failed. }
  split.
  { intros k Hk.
    destruct (cleanup_cases (store_cleanup io) (correlation_id m) true st2
                _ Hd) as (ok & temp' & target' & sp & -> & _).
    cbn [fst snd]. rewrite <- Ht by done.
    etrans; [by apply (lookup_put_ne Temp Temp)|].
    by apply (lookup_put_ne Processed Temp). }
  intros Hrel. rewrite <- (relocates_processed _ _ st st2) in Hrel by done.
  rewrite (cleanup_relocated _ _ _ _ _ Hd Hrel). cbn [fst snd].
  split; [apply lookup_delete_eq|].
  exists mtime, entries. apply lookup_insert_eq.
Qed.

End LoggedFileManagerSpec.

Module WorkerSpec.
Import PyStr PurePath Messages Transcription EmailProcessor FileManager
       FileManagerSpec StorePredicates Logging LoggedFileManager EmailTasks
       EmailTasksMoreSpec LoggedFileManagerSpec SpeechCall.

(** *** What the store step leaves alone *)

Lemma logged_store_loop_frame sp level io cid
    (items : list (nat * AudioAttachment)) stored st a k :
  k ≠ cid →
  area_of a (store_loop sp level io cid items stored st).2 !! k
  = area_of a st !! k.
Proof.
  intros Hk. revert stored st.
  induction items as [|[j b] items IH]; intros stored st; [done|].
  cbn [store_loop]. rewrite logged_store_audio_file.
  pose proof (store_audio_file_frame sp io cid b j st a k Hk) as Hstep.
  destruct (FileManager._store_audio_file _ _ _ _ _ _) as [body st'].
  cbn [fst snd] in *.
  destruct body; repeat case_match; cbn [snd]; rewrite ?IH; done.
Qed.

Lemma logged_store_frame sp level io (m : VoicemailMessage) st a k :
  k ≠ correlation_id m →
  area_of a (LoggedFileManager.store_voicemail_files sp level io m st).2 !! k
  = area_of a st !! k.
Proof.
  intros Hk. unfold LoggedFileManager.store_voicemail_files.
  destruct (mkdir_work io (correlation_id m) st) as [raised st1] eqn:Hmk.
  assert (area_of a st1 !! k = area_of a st !! k) as Hst1.
  { unfold mkdir_work in Hmk.
    destruct (temp st !! correlation_id m) as [[c|mtime entries]|];
      [by injection Hmk as _ <-..|].
    destruct (mkdir_raises io); injection Hmk as _ <-; [done|].
    destruct a; simpl; by rewrite ?lookup_insert_ne. }
  destruct raised.
  - cbn [snd]. rewrite <- Hst1.
    by apply (cleanup_frame (store_cleanup io) (correlation_id m) true st1).
  - pose proof (logged_store_loop_frame sp level io (correlation_id m)
                  (imap pair (audio_attachments m)) ∅ st1 a k Hk) as Hloop.
    destruct (store_loop _ _ _ _ _ _ _) as [[stored|] st2]; cbn [snd] in *.
    + congruence.
    + rewrite <- Hst1, <- Hloop.
      by apply (cleanup_frame (store_cleanup io) (correlation_id m) true st2).
Qed.

Lemma worker_step_store_frame s (m : VoicemailMessage) st a k :
  k ≠ correlation_id m →
  area_of a (Worker.step_store s m st).2 !! k = area_of a st !! k.
Proof.
  intros Hk. unfold Worker.step_store.
  destruct (has_audio_attachments m); [|done].
  pose proof (logged_store_frame (Worker.path s) (Worker.log_level s)
                (Worker.store s) m st a k Hk) as H.
  by destruct (LoggedFileManager.store_voicemail_files _ _ _ m st).
Qed.

(** The invocation ends in one of the two records, around one cleanup
    call on the storage the store step left. *)
Lemma worker_cases s (m : VoicemailMessage) st :
  ∃ ok err results,
    Worker._process_voicemail_async s m st
    = ({| pr_correlation_id := correlation_id m;
          success := ok;
          transcriptions_count := length (successful results);
          error_message := err;
          pr_processing_time_ms := 0;
          forwarded := ok;
          files_cleaned :=
            (cleanup_correlation_files (Worker.cleanup s) (correlation_id m) ok
               (Worker.step_store s m st).2).1.1 |},
       (cleanup_correlation_files (Worker.cleanup s) (correlation_id m) ok
          (Worker.step_store s m st).2).1.2)
    ∧ (err = None ↔ ok = true)
    ∧ (results = [] ∨ results = step_transcribe (Worker.env_of s) m).
Proof.
  unfold Worker._process_voicemail_async.
  destruct (Worker.step_store s m st) as [nothing_stored st1]. cbn [snd].
  destruct nothing_stored.
  - exists false, (Some "Failed to store audio files for processing"), [].
    unfold on_error. cbn [on_cleanup Worker.env_of].
    destruct (cleanup_correlation_files _ _ false st1) as [[c s'] sp].
    split; [done|]. split; [done|]. by left.
  - destruct (step_forward (Worker.env_of s) m
                (step_transcribe (Worker.env_of s) m)) eqn:Hfw; cbn [negb].
    + exists true, None, (step_transcribe (Worker.env_of s) m).
      destruct (cleanup_correlation_files _ _ true st1) as [[c s'] sp].
      split; [done|]. split; [done|]. by right.
    + exists false, (Some "Failed to forward enhanced email"),
        (step_transcribe (Worker.env_of s) m).
      unfold on_error. cbn [on_cleanup Worker.env_of].
      destruct (cleanup_correlation_files _ _ false st1) as [[c s'] sp].
      split; [done|]. split; [done|]. by right.
Qed.

(** X16. Every invocation returns a record in which [success] equals
    [forwarded], the error message is absent exactly when [success]
    holds, the correlation id is the message's, and the transcription
    count does not exceed the number of audio attachments; and whenever
    the record says [files_cleaned], the id has no work directory left. *)
Theorem result_invariants
    (s : Worker.services) (m : VoicemailMessage) (st : storage) :
  let '(result, st') := Worker._process_voicemail_async s m st in
  success result = forwarded result
  ∧ (error_message result = None ↔ success result = true)
  ∧ pr_correlation_id result = correlation_id m
  ∧ (transcriptions_count result ≤ length (audio_attachments m))%nat
  ∧ (files_cleaned result = true → temp st' !! correlation_id m = None).
Proof.
  destruct (worker_cases s m st) as (ok & err & results & -> & Herr & Hres).
  cbn [success forwarded error_message pr_correlation_id
       transcriptions_count files_cleaned].
  split; [done|]. split; [done|]. split; [done|]. split.
  - destruct Hres as [->| ->]; [simpl; lia|].
    etrans; [apply successful_length|]. unfold step_transcribe.
    destruct (has_audio_attachments m); [|simpl; lia].
    apply transcribe_multiple_length.
  - apply cleanup_true_gone.
Qed.

(** X17. When the store step reports that nothing was stored, the
    invocation returns the storage-failure record with no transcription
    counted, and neither the speech API nor the outbound hand-over have
    any influence on the outcome: two sets of services that agree on the
    log level and on the storage behaviour give the same result and the
    same storage. *)
Theorem storage_failure_skips_later_steps
    (s s' : Worker.services) (m : VoicemailMessage) (st : storage) :
  Worker.log_level s' = Worker.log_level s →
  Worker.path s' = Worker.path s →
  Worker.store s' = Worker.store s →
  Worker.cleanup s' = Worker.cleanup s →
  (Worker.step_store s m st).1 = true →
  Worker._process_voicemail_async s' m st
  = Worker._process_voicemail_async s m st
  ∧ success (Worker._process_voicemail_async s m st).1 = false
  ∧ error_message (Worker._process_voicemail_async s m st).1
    = Some "Failed to store audio files for processing"
  ∧ transcriptions_count (Worker._process_voicemail_async s m st).1 = 0%nat.
Proof.
  intros Hl Hp Hs Hc Hnone.
  assert (Worker.step_store s' m st = Worker.step_store s m st) as Hsame.
  { unfold Worker.step_store. by rewrite Hl, Hp, Hs. }
  unfold Worker._process_voicemail_async. rewrite Hsame.
  destruct (Worker.step_store s m st) as [nothing_stored st1].
  simpl in Hnone. subst nothing_stored. unfold on_error.
  cbn [on_cleanup Worker.env_of]. rewrite Hc.
  by destruct (cleanup_correlation_files _ _ false st1) as [[c s''] sp].
Qed.

(** X18. An invocation changes nothing that belongs to another
    correlation id: in each of the three areas, the entry of every other
    name is after the invocation what it was before, whatever fails. *)
Theorem process_leaves_other_ids
    (s : Worker.services) (m : VoicemailMessage) (st : storage)
    (a : area) (k : string) :
  k ≠ correlation_id m →
  area_of a (Worker._process_voicemail_async s m st).2 !! k
  = area_of a st !! k.
Proof.
  intros Hk.
  destruct (worker_cases s m st) as (ok & err & results & -> & _).
  cbn [snd]. rewrite cleanup_frame by done. by apply worker_step_store_frame.
Qed.

(** X19. When the store step has not failed and the hand-over reports
    success, the invocation returns [success] and [forwarded] true with
    no error message, whatever the cleanup then does: [files_cleaned] and
    the storage are those of the cleanup called with [success=True], and
    when its relocation goes through, the work directory is on return the
    id's entry in the processed area and gone from the working area. *)
Theorem delivered_message_succeeds
    (s : Worker.services) (m : VoicemailMessage) (st : storage) :
  (Worker.step_store s m st).1 = false →
  step_forward (Worker.env_of s) m (step_transcribe (Worker.env_of s) m)
  = true →
  let cid := correlation_id m in
  let st1 := (Worker.step_store s m st).2 in
  let '(result, st') := Worker._process_voicemail_async s m st in
  success result = true
  ∧ forwarded result = true
  ∧ error_message result = None
  ∧ transcriptions_count result
    = length (successful (step_transcribe (Worker.env_of s) m))
  ∧ (cleanup_correlation_files (Worker.cleanup s) cid true st1).1
    = (files_cleaned result, st')
  ∧ (∀ work,
       temp st1 !! cid = Some work →
       relocates (Worker.cleanup s) cid true st1 = true →
       files_cleaned result = true
       ∧ processed st' !! cid = Some work
       ∧ temp st' !! cid = None).
Proof.
  intros Hstored Hfw. cbv zeta. unfold Worker._process_voicemail_async.
  destruct (Worker.step_store s m st) as [nothing_stored st1] eqn:Hstep.
  simpl in Hstored. subst nothing_stored. cbn [fst snd].
  rewrite Hfw. cbn [negb].
  destruct (cleanup_correlation_files (Worker.cleanup s) (correlation_id m)
              true st1) as [[cleaned st'] spawned] eqn:Hcl.
  cbn [fst snd success forwarded error_message transcriptions_count
       files_cleaned].
  unfold cleanup_correlation_files in Hcl.
  split; [done|]. split; [done|]. split; [done|]. split; [done|].
  split; [done|].
  intros work Hwork Hrel.
  rewrite (cleanup_relocated _ _ _ _ work Hwork Hrel) in Hcl.
  injection Hcl as <- <- _.
  split; [done|]. split; [apply lookup_insert_eq | apply lookup_delete_eq].
Qed.

(** The store returns nothing as soon as one attachment makes
    [_store_audio_file] raise, whether or not the work directory could be
    made. *)
Lemma store_returns_nothing sp level io (m : VoicemailMessage) st i a :
  level ≤ ERROR →
  audio_attachments m !! i = Some a →
  level ≤ DEBUG ∨ lands (write io i a) a = false →
  (LoggedFileManager.store_voicemail_files sp level io m st).1 = ∅.
Proof.
  intros Herr Hi Hbad. unfold LoggedFileManager.store_voicemail_files.
  destruct (mkdir_work io (correlation_id m) st) as [raised st1] eqn:Hmk.
  destruct raised; [done|].
  destruct (store_loop_raises sp level io (correlation_id m)
              (imap pair (audio_attachments m)) ∅ st1 i a)
    as (st2 & -> & _); [done|by eapply mkdir_work_dir| |done|done].
  apply list_elem_of_lookup. exists i. by rewrite list_lookup_imap, Hi.
Qed.

(** X25. With the error call of the file manager enabled (a log level up
    to [ERROR]), an invocation in which one attachment is not written in
    full ends in the storage-failure record, without a transcription or a
    hand-over; and at level [DEBUG] or below this is the end of every
    invocation for a message with audio, however well storage, speech API
    and mail server work.  When the work directory could be made and the
    relocation of the store's cleanup goes through, the record says
    [files_cleaned], and the work directory is on return the id's entry
    in the processed area, the failed area being as it was. *)
Theorem unwritten_payload_fails_invocation
    (s : Worker.services) (m : VoicemailMessage) (st : storage)
    (i : nat) (a : AudioAttachment) :
  Worker.log_level s ≤ ERROR →
  audio_attachments m !! i = Some a →
  Worker.log_level s ≤ DEBUG ∨ lands (write (Worker.store s) i a) a = false →
  let cid := correlation_id m in
  let '(result, st') := Worker._process_voicemail_async s m st in
  success result = false
  ∧ forwarded result = false
  ∧ error_message result = Some "Failed to store audio files for processing"
  ∧ transcriptions_count result = 0%nat
  ∧ ((∀ c, temp st !! cid ≠ Some (File c)) →
     (temp st !! cid = None → mkdir_raises (Worker.store s) = false) →
     relocates (store_cleanup (Worker.store s)) cid true st = true →
     files_cleaned result = true
     ∧ temp st' !! cid = None
     ∧ (∃ mtime entries, processed st' !! cid = Some (Dir mtime entries))
     ∧ failed st' = failed st).
Proof.
  intros Herr Hi Hbad. cbv zeta.
  pose proof (store_returns_nothing (Worker.path s) (Worker.log_level s)
                (Worker.store s) m st i a Herr Hi Hbad) as Hnone.
  pose proof (unwritten_payload_ends_in_processed (Worker.path s)
                (Worker.log_level s) (Worker.store s) m st i a Herr) as Hstore.
  cbv zeta in Hstore.
  unfold Worker._process_voicemail_async, Worker.step_store.
  assert (has_audio_attachments m = true) as ->.
  { unfold has_audio_attachments. destruct (audio_attachments m); [done|].
    done. }
  destruct (LoggedFileManager.store_voicemail_files _ _ _ m st)
    as [stored st1]. cbn [fst snd] in *. subst stored.
  rewrite map_size_empty. cbn [Nat.eqb]. unfold on_error.
  cbn [on_cleanup Worker.env_of].
  destruct (cleanup_correlation_files (Worker.cleanup s) (correlation_id m)
              false st1) as [[cleaned st'] spawned] eqn:Hcl.
  cbn [success forwarded error_message transcriptions_count files_cleaned].
  split; [done|]. split; [done|]. split; [done|]. split; [done|].
  intros Hnofile Hmkdir Hrel.
  destruct (Hstore Hnofile Hmkdir Hi Hbad) as (_ & Hf & _ & Hmoved).
  destruct (Hmoved Hrel) as (Hgone & Hproc).
  unfold cleanup_correlation_files in Hcl.
  rewrite cleanup_no_work in Hcl by done. injection Hcl as <- <- _.
  done.
Qed.

End WorkerSpec.

Module MoreWitnesses.
Import PyStr PyFloat PurePath Messages Transcription EmailProcessor FileManager
       EmailTasks SpeechCall SmtpSend Logging.

Lemma transcribe_audio_result_witness :
  0 ≤ max_alternatives MoreSamples.default_google
  ∧ transcribe_audio MoreSamples.default_google MoreSamples.one_result 1500
      Samples.audio_attachment = Some Samples.call_me_back
  ∧ SFleb f0 (confidence Samples.call_me_back) = true
  ∧ SFleb (confidence Samples.call_me_back) f1 = true
  ∧ Z.of_nat (length (alternatives Samples.call_me_back)) ≤ 0.
Proof.
  assert (0 ≤ max_alternatives MoreSamples.default_google) as Hmax
    by (simpl; lia).
  destruct (SpeechCallSpec.transcribe_audio_result MoreSamples.default_google
              MoreSamples.one_result 1500 Samples.audio_attachment
              Samples.call_me_back Hmax eq_refl)
    as (_ & _ & Hlo & Hhi & _ & Hlen).
  split; [exact Hmax|]. split; [reflexivity|].
  split; [exact Hlo|]. split; [exact Hhi | exact Hlen].
Defined.

Lemma send_setup_failure_skips_quit_witness :
  StartTLS ∈ setup_calls MoreSamples.default_outbound
  ∧ MoreSamples.starttls_raises StartTLS = true
  ∧ _send_email_sync MoreSamples.starttls_raises MoreSamples.default_outbound
    = (false, [Connect; StartTLS])
  ∧ (Quit ∉ (_send_email_sync MoreSamples.starttls_raises
               MoreSamples.default_outbound).2).
Proof.
  assert (StartTLS ∈ setup_calls MoreSamples.default_outbound) as Hin.
  { vm_compute. right. left. }
  destruct (SmtpSendSpec.send_setup_failure_skips_quit
              MoreSamples.starttls_raises MoreSamples.default_outbound
              StartTLS Hin eq_refl) as (_ & _ & Hquit).
  split; [exact Hin|]. split; [reflexivity|].
  split; [reflexivity | exact Hquit].
Defined.

Lemma unwritten_payload_ends_in_processed_witness :
  INFO ≤ ERROR
  ∧ audio_attachments Samples.voicemail_message !! 0%nat
    = Some Samples.audio_attachment
  ∧ LoggedFileManager.lands
      (write MoreSamples.empty_write_io 0 Samples.audio_attachment)
      Samples.audio_attachment = false
  ∧ (LoggedFileManager.store_voicemail_files (of_str "/app/storage") INFO
       MoreSamples.empty_write_io Samples.voicemail_message
       Samples.empty_storage).1 = ∅
  ∧ temp (LoggedFileManager.store_voicemail_files (of_str "/app/storage")
            INFO MoreSamples.empty_write_io Samples.voicemail_message
            Samples.empty_storage).2 !! "req_0123456789ab" = None.
Proof.
  assert (INFO ≤ ERROR) as H0 by (unfold INFO, ERROR; lia).
  assert (∀ c, temp Samples.empty_storage
                 !! correlation_id Samples.voicemail_message
               ≠ Some (File c)) as H1 by done.
  destruct (LoggedFileManagerSpec.unwritten_payload_ends_in_processed
              (of_str "/app/storage") INFO MoreSamples.empty_write_io
              Samples.voicemail_message Samples.empty_storage
              0 Samples.audio_attachment
              H0 H1 (λ _, eq_refl) eq_refl (or_intror eq_refl))
    as (Hnone & _ & _ & Hmoved).
  split; [exact H0|]. split; [reflexivity|]. split; [reflexivity|].
  split; [exact Hnone|]. exact (proj1 (Hmoved eq_refl)).
Defined.

Lemma storage_failure_skips_later_steps_witness :
  (Worker.step_store
     (MoreSamples.services_with INFO MoreSamples.no_mkdir_io true)
     Samples.voicemail_message Samples.empty_storage).1 = true
  ∧ Worker._process_voicemail_async
      (MoreSamples.services_with INFO MoreSamples.no_mkdir_io false)
      Samples.voicemail_message Samples.empty_storage
    = Worker._process_voicemail_async
        (MoreSamples.services_with INFO MoreSamples.no_mkdir_io true)
        Samples.voicemail_message Samples.empty_storage
  ∧ success (Worker._process_voicemail_async
               (MoreSamples.services_with INFO MoreSamples.no_mkdir_io true)
               Samples.voicemail_message Samples.empty_storage).1 = false.
Proof.
  destruct (WorkerSpec.storage_failure_skips_later_steps
              (MoreSamples.services_with INFO MoreSamples.no_mkdir_io true)
              (MoreSamples.services_with INFO MoreSamples.no_mkdir_io false)
              Samples.voicemail_message Samples.empty_storage
              eq_refl eq_refl eq_refl eq_refl eq_refl) as (Hsame & Hfail & _).
  split; [reflexivity|]. split; [exact Hsame | exact Hfail].
Defined.

Lemma process_leaves_other_ids_witness :
  "req_ba9876543210" ≠ correlation_id Samples.voicemail_message
  ∧ area_of Failed
      (Worker._process_voicemail_async
         (MoreSamples.services_with INFO Samples.plain_store_io false)
         Samples.voicemail_message Samples.retried_storage).2
      !! "req_ba9876543210"
    = area_of Failed Samples.retried_storage !! "req_ba9876543210".
Proof.
  assert ("req_ba9876543210" ≠ correlation_id Samples.voicemail_message)
    as Hne by (simpl; discriminate).
  split; [exact Hne|].
  exact (WorkerSpec.process_leaves_other_ids
           (MoreSamples.services_with INFO Samples.plain_store_io false)
           Samples.voicemail_message Samples.retried_storage Failed
           "req_ba9876543210" Hne).
Defined.

Lemma delivered_message_succeeds_witness :
  (Worker.step_store
     (MoreSamples.services_with INFO Samples.plain_store_io true)
     Samples.voicemail_message Samples.empty_storage).1 = false
  ∧ (let '(result, st') :=
       Worker._process_voicemail_async
         (MoreSamples.services_with INFO Samples.plain_store_io true)
         Samples.voicemail_message Samples.empty_storage in
     success result = true
     ∧ forwarded result = true
     ∧ error_message result = None).
Proof.
  split; [reflexivity|].
  pose proof (WorkerSpec.delivered_message_succeeds
                (MoreSamples.services_with INFO Samples.plain_store_io true)
                Samples.voicemail_message Samples.empty_storage
                eq_refl eq_refl) as H.
  cbv zeta in H.
  destruct (Worker._process_voicemail_async
              (MoreSamples.services_with INFO Samples.plain_store_io true)
              Samples.voicemail_message Samples.empty_storage)
    as [result st'].
  destruct H as (Hs & Hf & He & _).
  split; [exact Hs|]. split; [exact Hf | exact He].
Defined.

Lemma unwritten_payload_fails_invocation_witness :
  DEBUG ≤ ERROR
  ∧ (let '(result, st') :=
       Worker._process_voicemail_async
         (MoreSamples.services_with DEBUG Samples.plain_store_io true)
         Samples.voicemail_message Samples.empty_storage in
     success result = false
     ∧ error_message result
       = Some "Failed to store audio files for processing").
Proof.
  assert (DEBUG ≤ ERROR) as H0 by (unfold DEBUG, ERROR; lia).
  assert (DEBUG ≤ DEBUG) as H1 by lia.
  split; [exact H0|].
  pose proof (WorkerSpec.unwritten_payload_fails_invocation
                (MoreSamples.services_with DEBUG Samples.plain_store_io true)
                Samples.voicemail_message Samples.empty_storage
                0 Samples.audio_attachment H0 eq_refl (or_introl H1)) as H.
  cbv zeta in H.
  destruct (Worker._process_voicemail_async
              (MoreSamples.services_with DEBUG Samples.plain_store_io true)
              Samples.voicemail_message Samples.empty_storage)
    as [result st'].
  destruct H as (Hs & _ & He & _).
  split; [exact Hs | exact He].
Defined.

End MoreWitnesses.
